(** * Parquet folder validator: a shallow embedding of [parquet_validator.py]

    The development follows the source file top to bottom: the string
    operations the validator relies on ([in], [str.split]), Python's
    insertion-ordered [dict], the validator object as a record, the methods
    of [ParquetValidator] in a state-and-exception monad, and finally the
    properties of each phase. *)

From Stdlib Require Import Ascii String.
From stdpp Require Import gmap strings list fin_maps fin_sets.

(** ** Strings *)

Module Str.

Definition eq_sign : ascii := "="%char.
Definition slash : ascii := "/"%char.
Definition tab : string := String (Ascii.ascii_of_nat 9) EmptyString.
Definition newline : string := String (Ascii.ascii_of_nat 10) EmptyString.

(** [c in s] for a one-character [c]. *)
Fixpoint contains (c : ascii) (s : string) : bool :=
  match s with
  | EmptyString => false
  | String a s' => if Ascii.eqb a c then true else contains c s'
  end.

(** [s.count(c)]. *)
Fixpoint count (c : ascii) (s : string) : nat :=
  match s with
  | EmptyString => 0
  | String a s' => (if Ascii.eqb a c then 1 else 0) + count c s'
  end.

(** The text in front of the first [c] (all of [s] when there is none). *)
Fixpoint before (c : ascii) (s : string) : string :=
  match s with
  | EmptyString => EmptyString
  | String a s' => if Ascii.eqb a c then EmptyString else String a (before c s')
  end.

(** The text behind the first [c] (empty when there is none). *)
Fixpoint after (c : ascii) (s : string) : string :=
  match s with
  | EmptyString => EmptyString
  | String a s' => if Ascii.eqb a c then s' else after c s'
  end.

(** [s.split(c, 1)]: at most one cut, at the first occurrence. *)
Definition split1 (c : ascii) (s : string) : list string :=
  if contains c s then [before c s; after c s] else [s].

(** [s.split(c)]: a cut at every occurrence; never the empty list. *)
Fixpoint split (c : ascii) (s : string) : list string :=
  match s with
  | EmptyString => [EmptyString]
  | String a s' =>
      if Ascii.eqb a c then EmptyString :: split c s'
      else match split c s' with
           | [] => [String a EmptyString]
           | w :: ws => String a w :: ws
           end
  end.

(** [s.startswith(p)]. *)
Fixpoint starts_with (p s : string) : bool :=
  match p with
  | EmptyString => true
  | String a p' =>
      match s with
      | EmptyString => false
      | String b s' => Ascii.eqb a b && starts_with p' s'
      end
  end.

(** [s.rfind(c)], as an option instead of [-1]. *)
Fixpoint rfind (c : ascii) (s : string) : option nat :=
  match s with
  | EmptyString => None
  | String a s' =>
      match rfind c s' with
      | Some i => Some (S i)
      | None => if Ascii.eqb a c then Some 0 else None
      end
  end.

(** [s[i:]]. *)
Fixpoint drop (i : nat) (s : string) : string :=
  match i, s with
  | 0, _ => s
  | S i', String _ s' => drop i' s'
  | S _, EmptyString => EmptyString
  end.

(** [pathlib]'s [PurePath.suffix] of a final path component: the text
    from the last dot on, unless that dot is the first or the last
    character of the name. *)
Definition suffix (name : string) : string :=
  match rfind "."%char name with
  | Some i =>
      if bool_decide (0 < i ∧ i < String.length name - 1) then drop i name
      else EmptyString
  | None => EmptyString
  end.

(** The guarded unpacking that the validator writes three times,
    [if "=" in name: key, value = name.split("=", 1)]: under the guard
    the split has exactly two parts. *)
Definition key_value (name : string) : option (string * string) :=
  match contains eq_sign name, split1 eq_sign name with
  | true, [key; value] => Some (key, value)
  | _, _ => None
  end.

End Str.

(** ** Python's [dict]: a finite map that iterates in insertion order *)

Module Dict.
Section Dict.
Context {K V : Type} `{EqDecision K}.

(** [d.get(k)] *)
Fixpoint get (k : K) (d : list (K * V)) : option V :=
  match d with
  | [] => None
  | (k', v) :: d' => if decide (k' = k) then Some v else get k d'
  end.

(** [k in d] *)
Definition mem (k : K) (d : list (K * V)) : bool :=
  match get k d with Some _ => true | None => false end.

(** [d[k] = v]: an existing key keeps its place, a new one goes last. *)
Fixpoint set (k : K) (v : V) (d : list (K * V)) : list (K * V) :=
  match d with
  | [] => [(k, v)]
  | (k', v') :: d' =>
      if decide (k' = k) then (k', v) :: d' else (k', v') :: set k v d'
  end.

End Dict.
End Dict.

(** ** What the validator takes from outside

    [pyarrow] and [pathlib] are not part of the program: the schema type
    with its equality and its printed form, the printed form of a path
    below the base path, and the text of the error [iterdir] raises on
    something that is not a directory are parameters. *)

Class Externals := {
  Schema : Type;
  Schema_eq_dec :: EqDecision Schema;
  (** [str(schema)], as the f-strings print it *)
  show_schema : Schema → string;
  (** [str(self.base_path / n1 / ... / nk)] for the names [n1 ... nk] *)
  show_path : list string → string;
  (** [str(e)] for the error of [Path.iterdir] on a non-directory *)
  iterdir_error : string;
}.

(** The result of a call that may raise. *)
Inductive outcome (A : Type) : Type :=
  | Raised (e : string)
  | Returned (a : A).
Arguments Raised {A} e.
Arguments Returned {A} a.

(** ** The file system under the base path *)

(** What [pq.ParquetFile(item)] gives for a file: it raises, or it yields
    the schema together with what
    [metadata.row_group(0).column(0).file_path] does afterwards (raise, for
    instance without row groups, or return the stored path). *)
Inductive metadata `{Externals} : Type :=
  | OpenFails (e : string)
  | Opened (schema : Schema) (file_path : outcome string).

#[local] Set Warnings "-register-all".

(** A directory lists its entries by name, in the order [iterdir] yields
    them; everything that is not a directory is a file. The trees are
    finite and every directory in them can be listed: [iterdir] raises on
    something that is not a directory and on nothing else. A directory
    that cannot be read, and a tree deeper than the recursion limit, make
    the walks of the program raise into the handler of [validate]; such
    trees are not among these, and what is proved of a walk is proved of
    the walks over trees that list. *)
Inductive node `{Externals} : Type :=
  | Dir (items : list (string * node))
  | File (meta : metadata).

Definition is_dir `{Externals} (n : node) : bool :=
  match n with Dir _ => true | File _ => false end.

(** ** The validator object *)

Record validator `{Externals} : Type := Validator {
  schema : option Schema;
  partition_columns : gset string;
  partition_values : gmap string (gset string);
  errors : list string;
  directory_structures : list (nat * gset (list string));
}.

(** [ParquetValidator.__init__] *)
Definition init `{Externals} : validator :=
  Validator _ None ∅ ∅ [] [].

(** ** Methods run on the object and may raise

    A method is a function from the object's state to an outcome and the
    state it leaves behind; what a method did before it raised stays
    done. *)

Definition M `{Externals} (A : Type) : Type := validator → outcome A * validator.

#[global] Instance M_ret `{Externals} : MRet M :=
  λ A a st, (Returned a, st).

#[global] Instance M_bind `{Externals} : MBind M :=
  λ A B k m st,
    match m st with
    | (Returned a, st') => k a st'
    | (Raised e, st') => (Raised e, st')
    end.

Definition raise `{Externals} {A} (e : string) : M A :=
  λ st, (Raised e, st).

Definition get `{Externals} : M validator :=
  λ st, (Returned st, st).

Definition modify `{Externals} (f : validator → validator) : M unit :=
  λ st, (Returned tt, f st).

(** [try: body / except Exception as e: handler(str(e))] *)
Definition try_except `{Externals} {A} (body : M A) (handler : string → M A) : M A :=
  λ st,
    match body st with
    | (Returned a, st') => (Returned a, st')
    | (Raised e, st') => handler e st'
    end.

(** [for x in l: body(x)] *)
Definition for_each `{Externals} {A} (body : A → M unit) : list A → M unit :=
  fix go l :=
    match l with
    | [] => mret tt
    | x :: l' => body x ;; go l'
    end.

(** [self.errors.append(e)] *)
Definition append_error `{Externals} (e : string) : M unit :=
  modify (λ st,
    Validator _ (schema st) (partition_columns st) (partition_values st)
      (errors st ++ [e]) (directory_structures st)).

Definition set_schema `{Externals} (s : Schema) : M unit :=
  modify (λ st,
    Validator _ (Some s) (partition_columns st) (partition_values st)
      (errors st) (directory_structures st)).

(** ** [_validate_folder_structure] *)

(** Lines 56-59: the tuple goes into the set of its level, which is
    created on first use (so the lookup on the last line finds it). *)
Definition track_structure (new_structure : list string)
    (ds : list (nat * gset (list string))) : list (nat * gset (list string)) :=
  let level := length new_structure in
  let ds := if Dict.mem level ds then ds else Dict.set level ∅ ds in
  Dict.set level ({[new_structure]} ∪ default ∅ (Dict.get level ds)) ds.

(** Lines 64-67: the key joins the partition columns, the value joins the
    set of the key, which is created on first use. *)
Definition add_partition (partition_key partition_value : string)
    (pv : gmap string (gset string)) : gmap string (gset string) :=
  let pv := if decide (partition_key ∈ dom pv) then pv
            else <[partition_key := ∅]> pv in
  <[partition_key := {[partition_value]} ∪ default ∅ (pv !! partition_key)]> pv.

(** Lines 53-67: what the walk records for one directory. *)
Definition record_directory `{Externals} (name : string)
    (new_structure : list string) : M unit :=
  modify (λ st,
    Validator _ (schema st) (partition_columns st) (partition_values st)
      (errors st) (track_structure new_structure (directory_structures st))) ;;
  match Str.key_value name with
  | Some (partition_key, partition_value) =>
      modify (λ st,
        Validator _ (schema st)
          ({[partition_key]} ∪ partition_columns st)
          (add_partition partition_key partition_value (partition_values st))
          (errors st) (directory_structures st))
  | None => mret tt
  end.

Fixpoint _validate_folder_structure `{Externals} (path : node)
    (current_structure : list string) {struct path} : M unit :=
  match path with
  | File _ => raise iterdir_error
  | Dir items =>
      for_each (λ '(name, item),
        if is_dir item then
          let new_structure := current_structure ++ [name] in
          record_directory name new_structure ;;
          _validate_folder_structure item new_structure
        else mret tt) items
  end.

(** ** [_check_conflicting_structures] *)

Definition conflict_tag : string := "[CONFLICTING_DIRECTORY_STRUCTURES]".

Definition conflict_header : string :=
  conflict_tag +:+ " Conflicting directory structures detected." +:+ Str.newline
  +:+ "Suspicious paths:" +:+ Str.newline.

Definition remediation : string :=
  Str.newline
  +:+ "If provided paths are partition directories, please set 'basePath' in the options "
  +:+ "of the data source to specify the root directory of the table." +:+ Str.newline
  +:+ "If there are multiple root directories, please load them separately and then union them.".

(** Lines 73-78: the first name of every non-empty tuple of every level. *)
Definition root_paths (ds : list (nat * gset (list string))) : gset string :=
  foldl (λ acc '(level, structures),
    foldl (λ acc structure,
      match structure with
      | root :: _ => {[root]} ∪ acc
      | [] => acc
      end) acc (elements (structures : gset (list string)))) ∅ ds.

(** Lines 103-108: the keys of all the [key=value] names of all the tuples
    of one level. *)
Definition structure_keys (acc : gset string) (structure : list string) : gset string :=
  foldl (λ acc dir_name,
    match Str.key_value dir_name with
    | Some (key, _) => {[key]} ∪ acc
    | None => acc
    end) acc structure.

Definition partition_keys (structures : gset (list string)) : gset string :=
  foldl structure_keys ∅ (elements structures).

(** The three-part report both steps write: header, one line per path,
    advice. *)
Definition report_conflict `{Externals} (paths : list (list string)) : M unit :=
  append_error conflict_header ;;
  for_each (λ p, append_error (Str.tab +:+ show_path p)) paths ;;
  append_error remediation.

(** Lines 101-125: the loop over the levels, left at the first conflict. *)
Fixpoint check_levels `{Externals} (ds : list (nat * gset (list string))) : M unit :=
  match ds with
  | [] => mret tt
  | (level, structures) :: ds' =>
      if bool_decide (1 < size (partition_keys structures)) then
        report_conflict (elements structures)
      else check_levels ds'
  end.

Definition _check_conflicting_structures `{Externals} : M unit :=
  st ← get;
  let root_paths := root_paths (directory_structures st) in
  if bool_decide (1 < size root_paths) then
    let all_partition_paths :=
      forallb (Str.contains Str.eq_sign) (elements root_paths) in
    if negb all_partition_paths then
      report_conflict ((λ root_path, [root_path]) <$> elements root_paths)
    else check_levels (directory_structures st)
  else check_levels (directory_structures st).

(** ** [_validate_parquet_files] *)

(** [pq.ParquetFile(item)]: the schema and the pending path lookup. *)
Definition ParquetFile `{Externals} (meta : metadata) : M (Schema * outcome string) :=
  match meta with
  | OpenFails e => raise e
  | Opened s fp => mret (s, fp)
  end.

(** [parquet_file.metadata.row_group(0).column(0).file_path] *)
Definition stored_file_path `{Externals} (fp : outcome string) : M string :=
  match fp with
  | Raised e => raise e
  | Returned p => mret p
  end.

Definition schema_mismatch `{Externals} (item : list string) (expected found : Schema) : string :=
  "Schema mismatch in " +:+ show_path item +:+ ". Expected schema: "
  +:+ show_schema expected +:+ ", Found schema: " +:+ show_schema found.

Definition partition_value_mismatch `{Externals} (item : list string) (value key : string) : string :=
  "Partition value mismatch in " +:+ show_path item +:+ ". Value " +:+ value
  +:+ " not found in partition " +:+ key.

Definition file_read_error `{Externals} (item : list string) (e : string) : string :=
  "Error reading parquet file " +:+ show_path item +:+ ": " +:+ e.

(** Lines 138-144 *)
Definition check_schema `{Externals} (item : list string) (file_schema : Schema) : M unit :=
  st ← get;
  match schema st with
  | None => set_schema file_schema
  | Some expected =>
      if decide (expected ≠ file_schema) then
        append_error (schema_mismatch item expected file_schema)
      else mret tt
  end.

(** Lines 148-155 *)
Definition check_partition `{Externals} (item : list string) (partition : string) : M unit :=
  match Str.key_value partition with
  | Some (key, value) =>
      st ← get;
      match partition_values st !! key with
      | Some values =>
          if decide (value ∉ values) then
            append_error (partition_value_mismatch item value key)
          else mret tt
      | None => mret tt
      end
  | None => mret tt
  end.

(** Lines 135-155: the body of the [try]. *)
Definition check_file `{Externals} (item : list string) (meta : metadata) : M unit :=
  parquet_file ← ParquetFile meta;
  check_schema item parquet_file.1 ;;
  file_path ← stored_file_path parquet_file.2;
  let file_partitions := Str.split Str.slash file_path in
  for_each (check_partition item) file_partitions.

(** Lines 133-158: the [try] statement around one data file. *)
Definition validate_file `{Externals} (item : list string) (meta : metadata) : M unit :=
  try_except (check_file item meta)
    (λ e, append_error (file_read_error item e)).

(** [path] is the node together with its names below the base path. *)
Fixpoint _validate_parquet_files `{Externals} (path_names : list string)
    (path : node) {struct path} : M unit :=
  match path with
  | File _ => raise iterdir_error
  | Dir items =>
      for_each (λ '(name, item),
        let item_names := path_names ++ [name] in
        match item with
        | Dir _ => _validate_parquet_files item_names item
        | File meta =>
            if decide (Str.suffix name = ".parquet") then
              validate_file item_names meta
            else mret tt
        end) items
  end.

(** ** [validate] and [main] *)

(** The base path either does not exist or is a node. Logging is left
    out: it changes neither the object nor the result. *)
Definition validate `{Externals} (base_path : option node) : M bool :=
  try_except
    (match base_path with
     | None =>
         append_error ("Base path " +:+ show_path [] +:+ " does not exist") ;;
         mret false
     | Some root =>
         _validate_folder_structure root [] ;;
         _check_conflicting_structures ;;
         _validate_parquet_files [] root ;;
         st ← get;
         match errors st with
         | _ :: _ => mret false
         | [] => mret true
         end
     end)
    (λ e,
       append_error ("Unexpected error during validation: " +:+ e) ;;
       mret false).

(** The exit code of the process: [exit(1)] when [validate] fails (an
    exception that escaped would end the process with 1 as well), 0 at the
    end of the script otherwise. *)
Definition main `{Externals} (base_path : option node) : nat :=
  match (validate base_path init).1 with
  | Returned true => 0
  | Returned false => 1
  | Raised _ => 1
  end.

(** ** Vocabulary of the specification

    The definitions below do not come from the program: they say in the
    specification's words what the theorems compare the program with. *)

(** The object after the messages [es] were appended to its error list. *)
Definition add_errors `{Externals} (es : list string) (st : validator) : validator :=
  Validator _ (schema st) (partition_columns st) (partition_values st)
    (errors st ++ es) (directory_structures st).

(** The object after the reference schema became [r]. *)
Definition with_schema `{Externals} (r : option Schema) (st : validator) : validator :=
  Validator _ r (partition_columns st) (partition_values st)
    (errors st) (directory_structures st).

(** The distinct first path segments over all depth-1 tuples. *)
Definition depth1_segments (ds : list (nat * gset (list string))) : gset string :=
  set_omap head (default (∅ : gset (list string)) (Dict.get 1 ds)).

(** The partition keys found at one depth: the key of the directory each
    tuple of that depth ends in. *)
Definition depth_keys (structures : gset (list string)) : gset string :=
  set_omap (λ structure : list string,
    name ← last structure; fst <$> Str.key_value name) structures.

(** A message is a conflicting-structure error when it carries the tag. *)
Definition is_conflict_error (e : string) : bool := Str.starts_with conflict_tag e.

(** A message is a file-read-error when it starts like one. *)
Definition is_file_read_error (e : string) : bool :=
  Str.starts_with "Error reading parquet file " e.

(** The value and the key of an offending segment: an [=]-bearing segment
    whose key is in the collected map while its value is not in the set
    recorded for that key. *)
Definition offending (pv : gmap string (gset string)) (partition : string)
    : option (string * string) :=
  match Str.key_value partition with
  | Some (key, value) =>
      match pv !! key with
      | Some values => if decide (value ∈ values) then None else Some (value, key)
      | None => None
      end
  | None => None
  end.

(** The schema-mismatch error of a file with schema [s] against the
    reference, if there is one and it differs. *)
Definition schema_errors `{Externals} (item : list string) (reference : option Schema)
    (s : Schema) : list string :=
  match reference with
  | Some r => if decide (r = s) then [] else [schema_mismatch item r s]
  | None => []
  end.

(** One partition-value-mismatch error per offending segment, in the
    order of the segments. *)
Definition partition_errors `{Externals} (pv : gmap string (gset string))
    (item : list string) (file_partitions : list string) : list string :=
  (λ '(value, key), partition_value_mismatch item value key)
  <$> omap (offending pv) file_partitions.

(** Why the metadata reader fails on a file, if it does: the reader of the
    specification returns the schema and the stored path together, or
    fails. *)
Definition read_failure `{Externals} (meta : metadata) : option string :=
  match meta with
  | OpenFails e => Some e
  | Opened _ (Raised e) => Some e
  | Opened _ (Returned _) => None
  end.

(** The schemas of the data files below a node, in the order of the walk,
    of those files that [keep] selects. *)
Fixpoint file_schemas `{Externals} (keep : metadata → option Schema) (path : node)
    {struct path} : list Schema :=
  match path with
  | File _ => []
  | Dir items =>
      flat_map (λ '(name, item),
        match item with
        | Dir _ => file_schemas keep item
        | File meta =>
            if decide (Str.suffix name = ".parquet") then
              match keep meta with Some s => [s] | None => [] end
            else []
        end) items
  end.

(** The schema of a file the reader reads successfully. *)
Definition read_schema `{Externals} (meta : metadata) : option Schema :=
  match meta with
  | Opened s (Returned _) => Some s
  | _ => None
  end.

(** The schema of a file whose Parquet metadata opens. *)
Definition opened_schema `{Externals} (meta : metadata) : option Schema :=
  match meta with
  | Opened s _ => Some s
  | OpenFails _ => None
  end.

(** Every data file below the node is read successfully, has the schema
    [s], and stores a path without offending segment. *)
Fixpoint clean_files `{Externals} (pv : gmap string (gset string)) (s : Schema)
    (path : node) {struct path} : bool :=
  match path with
  | File _ => true
  | Dir items =>
      forallb (λ '(name, item),
        match item with
        | Dir _ => clean_files pv s item
        | File meta =>
            if decide (Str.suffix name = ".parquet") then
              match meta with
              | Opened s' (Returned p) =>
                  bool_decide (s' = s)
                  && forallb (λ partition, bool_decide (offending pv partition = None))
                       (Str.split Str.slash p)
              | _ => false
              end
            else true
        end) items
  end.

(** The tuples recorded for one level. *)
Definition level_set (level : nat) (ds : list (nat * gset (list string)))
    : gset (list string) :=
  default ∅ (Dict.get level ds).

(** Every recorded tuple starts with a name that is itself recorded, as a
    one-name tuple, at level 1: what a walk from the base path leaves. *)
Definition well_rooted (ds : list (nat * gset (list string))) : Prop :=
  ∀ level structures structure,
    (level, structures) ∈ ds → structure ∈ structures →
    ∃ root, head structure = Some root ∧ [root] ∈ level_set 1 ds.

(** The tuple the walk currently stands at starts with such a name. *)
Definition rooted_in (ds : list (nat * gset (list string)))
    (current_structure : list string) : Prop :=
  ∀ root, head current_structure = Some root → [root] ∈ level_set 1 ds.

(** ** A concrete setting for the examples *)

Module Demo.

Definition ext : Externals := {|
  Schema := string;
  show_schema := id;
  show_path := λ names, foldl (λ acc n, acc +:+ "/" +:+ n) "/data" names;
  iterdir_error := "[Errno 20] Not a directory: '/data'";
|}.

#[local] Existing Instance ext.

Definition data_file (s p : string) : node := File (Opened s (Returned p)).

(** [year=2020/month=01/f.parquet] *)
Definition nested : node :=
  Dir [("year=2020", Dir [("month=01",
         Dir [("f.parquet", data_file "int64 id" "year=2020/month=01/f.parquet")])])].

(** [a/] next to [year=2020/] *)
Definition mixed_root : node :=
  Dir [("a", Dir []); ("year=2020", Dir [])].

(** [data/year=2020/f.parquet] and [data/year=2021/g.parquet] *)
Definition uniform : node :=
  Dir [("data", Dir [
    ("year=2020", Dir [("f.parquet", data_file "int64 id" "year=2020/f.parquet")]);
    ("year=2021", Dir [("g.parquet", data_file "int64 id" "year=2021/g.parquet")])])].

(** A file without row groups in front of a well-formed one. *)
Definition empty_then_good : node :=
  Dir [("a.parquet", File (Opened "int64 id" (Raised "list index out of range")));
       ("b.parquet", data_file "string id" "b.parquet")].

(** [month=01/f.parquet] whose metadata says [month=13]. *)
Definition stale : node :=
  Dir [("month=01", Dir [("f.parquet", data_file "int64 id" "month=13/f.parquet")])].

End Demo.

(** ** Vocabulary for the properties of whole walks *)

(** The directories below a node, each as the list of its names from the
    node down, in the order in which the first walk meets them. *)
Fixpoint dir_paths `{Externals} (path : node) {struct path} : list (list string) :=
  match path with
  | File _ => []
  | Dir items =>
      flat_map (λ '(name, item),
        if is_dir item then [name] :: ((name ::.) <$> dir_paths item) else []) items
  end.

(** What the first walk records for the directory at [p] below the place
    [current_structure]: lines 53-67 for its last name. *)
Definition record_path `{Externals} (current_structure : list string)
    (st : validator) (p : list string) : validator :=
  match last p with
  | Some name => (record_directory name (current_structure ++ p) st).2
  | None => st
  end.

(** The levels of the dictionary, in the order [items()] yields them. *)
Definition levels (ds : list (nat * gset (list string))) : list nat := ds.*1.

(** The errors of one data file when the reference schema is [r]: the
    read error if the metadata does not open; otherwise the schema
    mismatch, if the schema differs from [r], followed by the read error
    of the stored path or by the partition mismatches. *)
Definition file_errors `{Externals} (pv : gmap string (gset string)) (r : Schema)
    (item : list string) (meta : metadata) : list string :=
  match meta with
  | OpenFails e => [file_read_error item e]
  | Opened s fp =>
      (if decide (r = s) then [] else [schema_mismatch item r s])
      ++ match fp with
         | Raised e => [file_read_error item e]
         | Returned p => partition_errors pv item (Str.split Str.slash p)
         end
  end.

(** The errors of all the data files below a node, in the order of the
    walk, when the reference schema is [r]. *)
Fixpoint walk_errors `{Externals} (pv : gmap string (gset string)) (r : Schema)
    (path_names : list string) (path : node) {struct path} : list string :=
  match path with
  | File _ => []
  | Dir items =>
      flat_map (λ '(name, item),
        match item with
        | Dir _ => walk_errors pv r (path_names ++ [name]) item
        | File meta =>
            if decide (Str.suffix name = ".parquet") then
              file_errors pv r (path_names ++ [name]) meta
            else []
        end) items
  end.

(** [r] is the schema the second walk compares with: the reference the
    validator has, or else the schema of the first file that will open,
    if any does. *)
Definition reference_of `{Externals} (st : validator) (path : node) (r : Schema) : Prop :=
  match schema st with
  | Some r' => r' = r
  | None =>
      match head (file_schemas opened_schema path) with
      | Some r' => r' = r
      | None => True
      end
  end.

(** [c.join(parts)] for a one-character [c]. *)
Fixpoint join (c : ascii) (parts : list string) : string :=
  match parts with
  | [] => EmptyString
  | [part] => part
  | part :: parts' => part +:+ String c (join c parts')
  end.

(** The names of the directories directly under a directory listing. *)
Definition child_dirs `{Externals} (items : list (string * node)) : list string :=
  omap (λ '(name, item), if is_dir item then Some name else None) items.

(** [s[:i]]. *)
Fixpoint take_chars (i : nat) (s : string) : string :=
  match i, s with
  | S i', String a s' => String a (take_chars i' s')
  | _, _ => EmptyString
  end.

(** ** Further trees for the examples *)

Module Trees.

#[local] Existing Instance Demo.ext.

(** [year=2020/month=01] next to [year=2020/region=west] *)
Definition mixed_keys : node :=
  Dir [("year=2020", Dir [("month=01", Dir []); ("region=west", Dir [])])].

(** [year=2020/f.parquet] next to files that are not data files. *)
Definition with_other_files : node :=
  Dir [("year=2020", Dir [
    ("f.parquet", Demo.data_file "int64 id" "year=2020/f.parquet");
    ("_SUCCESS", File (OpenFails "Parquet magic bytes not found"))]);
    (".parquet", File (OpenFails "Parquet magic bytes not found"))].

(** An unreadable data file under [a/], next to [year=2020/]. *)
Definition ambiguous_with_file : node :=
  Dir [("a", Dir [("x.parquet", File (OpenFails "Parquet magic bytes not found"))]);
       ("year=2020", Dir [])].

End Trees.

(** * Properties *)

(** ** Strings *)

Lemma contains_count c s : Str.contains c s = true ↔ 0 < Str.count c s.
Proof.
  induction s as [|a s IH]; simpl; [split; [done | lia] |].
  destruct (Ascii.eqb a c); [split; [lia | done] | by rewrite IH].
Qed.

Lemma contains_false_count c s : Str.contains c s = false ↔ Str.count c s = 0.
Proof.
  rewrite <-not_true_iff_false, contains_count. lia.
Qed.

(** The two parts of a split at the first separator give the string
    back, and the first part has no separator. *)
Lemma before_after c s :
  Str.contains c s = true →
  s = Str.before c s +:+ String c (Str.after c s)
  ∧ Str.contains c (Str.before c s) = false.
Proof.
  induction s as [|a s IH]; simpl; [done |].
  destruct (Ascii.eqb a c) eqn:E.
  - apply Ascii.eqb_eq in E as ->. done.
  - intros [Hs Hb]%IH. simpl. rewrite E. split; [| done].
    change (String a s = String a (Str.before c s +:+ String c (Str.after c s))).
    congruence.
Qed.

Lemma key_value_contains name :
  Str.contains Str.eq_sign name = true →
  Str.key_value name
  = Some (Str.before Str.eq_sign name, Str.after Str.eq_sign name).
Proof. intros E. unfold Str.key_value, Str.split1. by rewrite E. Qed.

Lemma key_value_no_sign name :
  Str.contains Str.eq_sign name = false → Str.key_value name = None.
Proof. intros E. unfold Str.key_value. by rewrite E. Qed.

Lemma key_value_Some name key value :
  Str.key_value name = Some (key, value) →
  Str.contains Str.eq_sign name = true
  ∧ key = Str.before Str.eq_sign name ∧ value = Str.after Str.eq_sign name.
Proof.
  destruct (Str.contains Str.eq_sign name) eqn:E.
  - rewrite key_value_contains by done. by intros [= <- <-].
  - by rewrite key_value_no_sign.
Qed.

(** ** Dictionaries *)

Section DictFacts.
Context {K V : Type} `{EqDecision K}.
Implicit Types (k : K) (v : V) (d : list (K * V)).

Lemma get_set_eq k v d : Dict.get k (Dict.set k v d) = Some v.
Proof.
  induction d as [|[k' v'] d IH]; simpl.
  - by rewrite decide_True.
  - destruct (decide (k' = k)) as [->|Hne]; simpl.
    + by rewrite decide_True.
    + by rewrite decide_False.
Qed.

Lemma get_set_ne k k' v d : k ≠ k' → Dict.get k' (Dict.set k v d) = Dict.get k' d.
Proof.
  intros Hne. induction d as [|[k0 v0] d IH]; simpl.
  - by rewrite decide_False.
  - destruct (decide (k0 = k)) as [->|Hne0]; simpl.
    + by rewrite !decide_False.
    + destruct (decide (k0 = k')); [done | apply IH].
Qed.

Lemma get_Some_elem k v d : Dict.get k d = Some v → (k, v) ∈ d.
Proof.
  induction d as [|[k' v'] d IH]; simpl; [done |].
  destruct (decide (k' = k)) as [->|Hne].
  - intros [= ->]. left.
  - intros Hin. right. by apply IH.
Qed.

Lemma elem_set k v k' v' d :
  (k', v') ∈ Dict.set k v d → (k' = k ∧ v' = v) ∨ (k', v') ∈ d.
Proof.
  induction d as [|[k0 v0] d IH]; simpl.
  - intros [= -> ->]%list_elem_of_singleton. by left.
  - destruct (decide (k0 = k)) as [->|Hne].
    + intros [[= -> ->]|Hin]%elem_of_cons; [by left | right; by right].
    + intros [[= -> ->]|Hin]%elem_of_cons; [right; left |].
      destruct (IH Hin) as [?|?]; [by left | right; by right].
Qed.

Lemma mem_get k d : Dict.mem k d = true ↔ is_Some (Dict.get k d).
Proof.
  unfold Dict.mem. destruct (Dict.get k d); split; intros Hx; done || by destruct Hx.
Qed.

End DictFacts.

(** ** The walk over the tree *)

Section Walk.
Context `{Externals}.

(** Induction over a tree whose directories hold lists of trees. *)
Lemma node_induction (P : node → Prop) :
  (∀ items, Forall (λ entry, P entry.2) items → P (Dir items)) →
  (∀ meta, P (File meta)) →
  ∀ n, P n.
Proof.
  intros HDir HFile. fix IH 1. intros [items|meta]; [|apply HFile].
  apply HDir. induction items as [|[name item] items IHitems].
  - constructor.
  - constructor; [apply IH | apply IHitems].
Qed.

Lemma for_each_cons {A} (body : A → M unit) x l st :
  for_each body (x :: l) st
  = match body x st with
    | (Returned _, st') => for_each body l st'
    | (Raised e, st') => (Raised e, st')
    end.
Proof. reflexivity. Qed.

Lemma for_each_app {A} (body : A → M unit) l1 l2 st :
  for_each body (l1 ++ l2) st
  = match for_each body l1 st with
    | (Returned _, st') => for_each body l2 st'
    | (Raised e, st') => (Raised e, st')
    end.
Proof.
  revert st. induction l1 as [|x l1 IH]; intros st; [done |].
  rewrite <-app_comm_cons, !for_each_cons.
  destruct (body x st) as [[e|[]] st']; [done | apply IH].
Qed.

(** *** What one directory adds to the recorded tuples *)

Lemma track_structure_get new_structure ds :
  Dict.get (length new_structure) (track_structure new_structure ds)
  = Some ({[new_structure]} ∪ level_set (length new_structure) ds).
Proof.
  unfold track_structure, level_set. rewrite get_set_eq. do 2 f_equal.
  destruct (Dict.mem _ ds) eqn:E; [done |].
  rewrite get_set_eq. simpl.
  destruct (Dict.get _ ds) eqn:E'; [|done].
  assert (Dict.mem (length new_structure) ds = true) by (apply mem_get; by rewrite E').
  congruence.
Qed.

Lemma track_structure_get_ne level new_structure ds :
  level ≠ length new_structure →
  Dict.get level (track_structure new_structure ds) = Dict.get level ds.
Proof.
  intros Hne. unfold track_structure. rewrite get_set_ne by done.
  destruct (Dict.mem _ ds); [done | by rewrite get_set_ne].
Qed.

Lemma level_set_track level new_structure ds :
  level_set level (track_structure new_structure ds)
  = if decide (level = length new_structure)
    then {[new_structure]} ∪ level_set level ds
    else level_set level ds.
Proof.
  unfold level_set at 1. case_decide as E.
  - subst. by rewrite track_structure_get.
  - by rewrite track_structure_get_ne.
Qed.

Lemma level_set_track_mono level new_structure ds structure :
  structure ∈ level_set level ds →
  structure ∈ level_set level (track_structure new_structure ds).
Proof. rewrite level_set_track. case_decide; set_solver. Qed.

Lemma elem_track_structure new_structure ds level structures structure :
  (level, structures) ∈ track_structure new_structure ds →
  structure ∈ structures →
  structure = new_structure
  ∨ ∃ structures0, (level, structures0) ∈ ds ∧ structure ∈ structures0.
Proof.
  unfold track_structure. intros [[-> ->]|Hin]%elem_set Ht.
  - apply elem_of_union in Ht as [Ht|Ht]; [left; set_solver |]. right.
    destruct (Dict.mem _ ds) eqn:E.
    + destruct (Dict.get _ ds) as [structures0|] eqn:E'; simpl in Ht; [|set_solver].
      exists structures0. split; [by apply get_Some_elem | done].
    + rewrite get_set_eq in Ht. set_solver.
  - right. destruct (Dict.mem _ ds); [by eexists |].
    apply elem_set in Hin as [[-> ->]|Hin]; [set_solver | by eexists].
Qed.


Lemma record_directory_run name new_structure st :
  record_directory name new_structure st
  = (Returned tt,
     Validator _ (schema st)
       (match Str.key_value name with
        | Some (key, _) => {[key]} ∪ partition_columns st
        | None => partition_columns st
        end)
       (match Str.key_value name with
        | Some (key, value) => add_partition key value (partition_values st)
        | None => partition_values st
        end)
       (errors st)
       (track_structure new_structure (directory_structures st))).
Proof.
  unfold record_directory, mbind, M_bind, modify. simpl.
  by destruct (Str.key_value name) as [[key value]|].
Qed.

(** A tuple that extends a rooted tuple by one name is rooted once it is
    recorded. *)
Lemma rooted_in_extend ds current_structure name :
  rooted_in ds current_structure →
  rooted_in (track_structure (current_structure ++ [name]) ds)
    (current_structure ++ [name]).
Proof.
  intros Hcur root Hroot. destruct current_structure as [|first rest].
  - simpl in Hroot. injection Hroot as ->.
    rewrite level_set_track. simpl. set_solver.
  - simpl in Hroot. injection Hroot as ->.
    apply level_set_track_mono. by apply Hcur.
Qed.

Lemma well_rooted_track ds current_structure name :
  well_rooted ds → rooted_in ds current_structure →
  well_rooted (track_structure (current_structure ++ [name]) ds).
Proof.
  intros Hds Hcur level structures structure Hin Ht.
  destruct (elem_track_structure _ _ _ _ _ Hin Ht) as [->|(structures0 & Hin0 & Ht0)].
  - destruct (head (current_structure ++ [name])) as [root|] eqn:Hroot.
    + exists root. split; [done |]. by apply rooted_in_extend.
    + by destruct current_structure.
  - destruct (Hds _ _ _ Hin0 Ht0) as (root & Hroot & Hlevel).
    exists root. split; [done | by apply level_set_track_mono].
Qed.

(** The first walk over a directory never raises, touches neither the
    errors nor the schema, only adds tuples, and keeps them rooted. *)
Lemma validate_folder_structure_run path :
  ∀ current_structure st,
    is_dir path = true →
    ∃ st',
      _validate_folder_structure path current_structure st = (Returned tt, st')
      ∧ schema st' = schema st
      ∧ errors st' = errors st
      ∧ (∀ level structure,
           structure ∈ level_set level (directory_structures st) →
           structure ∈ level_set level (directory_structures st'))
      ∧ (well_rooted (directory_structures st) →
         rooted_in (directory_structures st) current_structure →
         well_rooted (directory_structures st')).
Proof.
  induction path as [items IH|meta] using node_induction; [|done].
  intros current_structure st _. simpl.
  revert st. induction IH as [|[name item] items IHitem _ IHitems]; intros st.
  - exists st. by repeat split.
  - rewrite for_each_cons. simpl in IHitem.
    destruct (is_dir item) eqn:Hdir.
    + unfold mbind at 1, M_bind at 1. rewrite record_directory_run.
      match goal with |- context [_validate_folder_structure item ?c ?s] =>
        destruct (IHitem c s eq_refl) as (st1 & -> & Hs1 & He1 & Hm1 & Hw1)
      end.
      destruct (IHitems st1) as (st2 & Hrun2 & Hs2 & He2 & Hm2 & Hw2).
      simpl in *. exists st2. split; [exact Hrun2 |].
      split; [congruence |]. split; [congruence |].
      assert (∀ level structure,
        structure ∈ level_set level (directory_structures st) →
        structure ∈ level_set level (directory_structures st1)) as Hm.
      { intros level structure Hin. apply Hm1. by apply level_set_track_mono. }
      split.
      * intros level structure Hin. apply Hm2. by apply Hm.
      * intros Hds Hcur. apply Hw2.
        -- apply Hw1; [by apply well_rooted_track | by apply rooted_in_extend].
        -- intros root Hroot. apply Hm. by apply Hcur.
    + destruct (IHitems st) as (st2 & Hrun2 & ?). exists st2. split; [exact Hrun2 | done].
Qed.

(** *** The root paths of Step 1 *)

Lemma elem_root_paths ds root :
  root ∈ root_paths ds
  ↔ ∃ level structures structure,
      (level, structures) ∈ ds ∧ structure ∈ structures
      ∧ head structure = Some root.
Proof.
  unfold root_paths.
  set (inner := λ (acc : gset string) (structure : list string),
    match structure with root :: _ => {[root]} ∪ acc | [] => acc end).
  assert (∀ structures acc,
    root ∈ foldl inner acc structures
    ↔ root ∈ acc ∨ ∃ structure, structure ∈ structures ∧ head structure = Some root)
    as Hinner.
  { induction structures as [|structure structures IH]; intros acc; simpl.
    - split; [by left | intros [?|(? & []%elem_of_nil & _)]; done].
    - rewrite IH. clear IH. split.
      + intros [Hacc|(structure' & Hin & Hhead)].
        * destruct structure as [|first rest]; simpl in Hacc; [by left |].
          apply elem_of_union in Hacc as [->%elem_of_singleton|Hacc]; [|by left].
          right. exists (first :: rest). split; [left | done].
        * right. exists structure'. split; [by right | done].
      + intros [Hacc|(structure' & Hin & Hhead)].
        * left. destruct structure; simpl; set_solver.
        * apply elem_of_cons in Hin as [->|Hin].
          -- left. destruct structure as [|first rest]; [done |].
             simpl in Hhead. injection Hhead as ->. simpl. set_solver.
          -- right. by exists structure'. }
  assert (∀ acc,
    root ∈ foldl (λ acc '(level, structures),
                    foldl inner acc (elements (structures : gset (list string)))) acc ds
    ↔ root ∈ acc ∨ ∃ level structures structure,
        (level, structures) ∈ ds ∧ structure ∈ structures
        ∧ head structure = Some root) as Houter.
  { induction ds as [|[level structures] ds IH]; intros acc; simpl.
    - split; [by left | intros [?|(? & ? & ? & []%elem_of_nil & _)]; done].
    - rewrite IH, Hinner. split.
      + intros [[Hacc|(structure & Hin & Hhead)]|(l & ss & s & Hin & Hs & Hhead)].
        * by left.
        * right. exists level, structures, structure.
          split; [left | by rewrite <-elem_of_elements].
        * right. exists l, ss, s. split; [by right | done].
      + intros [Hacc|(l & ss & s & Hin & Hs & Hhead)]; [by left; left |].
        apply elem_of_cons in Hin as [[= -> ->]|Hin].
        * left. right. exists s. by rewrite elem_of_elements.
        * right. by exists l, ss, s. }
  rewrite Houter. split; [|by right].
  intros [Hempty|?]; [|done]. by apply not_elem_of_empty in Hempty.
Qed.

(** After a walk the first names of all tuples are the first names of the
    depth-1 tuples. *)
Lemma root_paths_depth1 ds :
  well_rooted ds → root_paths ds = depth1_segments ds.
Proof.
  intros Hds. apply set_eq. intros root.
  rewrite elem_root_paths. unfold depth1_segments. rewrite elem_of_set_omap.
  split.
  - intros (level & structures & structure & Hin & Hs & Hhead).
    destruct (Hds _ _ _ Hin Hs) as (root' & Hroot' & Hlevel).
    assert (root' = root) as -> by congruence.
    by exists [root].
  - intros (structure & Hs & Hhead). unfold level_set in *.
    destruct (Dict.get 1 ds) as [structures|] eqn:E; simpl in Hs; [|set_solver].
    exists 1, structures, structure. split; [by apply get_Some_elem | done].
Qed.

End Walk.

(** ** Conflict detection *)

Section Conflicts.
Context `{Externals}.

Lemma add_errors_nil st : add_errors [] st = st.
Proof. destruct st. unfold add_errors. simpl. by rewrite app_nil_r. Qed.

Lemma add_errors_app es1 es2 st :
  add_errors es2 (add_errors es1 st) = add_errors (es1 ++ es2) st.
Proof. unfold add_errors. simpl. by rewrite app_assoc. Qed.

Lemma append_error_run e st : append_error e st = (Returned tt, add_errors [e] st).
Proof. reflexivity. Qed.

Lemma append_each_run {A} (f : A → string) l st :
  for_each (λ x, append_error (f x)) l st = (Returned tt, add_errors (f <$> l) st).
Proof.
  revert st. induction l as [|x l IH]; intros st.
  - by rewrite add_errors_nil.
  - rewrite for_each_cons, append_error_run, IH, add_errors_app. done.
Qed.

(** The report is one tagged header, one line per path, and the advice. *)
Lemma report_conflict_run paths st :
  report_conflict paths st
  = (Returned tt,
     add_errors (conflict_header
                 :: ((λ p, Str.tab +:+ show_path p) <$> paths) ++ [remediation]) st).
Proof.
  unfold report_conflict, mbind, M_bind.
  rewrite append_error_run, append_each_run, append_error_run, !add_errors_app.
  done.
Qed.

Lemma path_lines_untagged {A} (f : A → string) (l : list A) :
  List.filter is_conflict_error ((λ x, Str.tab +:+ f x) <$> l) = [].
Proof. induction l as [|x l IH]; [done | exact IH]. Qed.

(** Exactly one entry of a report carries the tag. *)
Lemma report_one_tag {A} (f : A → string) (l : list A) :
  length (List.filter is_conflict_error
            (conflict_header :: ((λ x, Str.tab +:+ f x) <$> l) ++ [remediation])) = 1.
Proof.
  change (length (conflict_header
            :: List.filter is_conflict_error
                 (((λ x, Str.tab +:+ f x) <$> l) ++ [remediation])) = 1).
  by rewrite List.filter_app, path_lines_untagged.
Qed.

Lemma forallb_elements (f : string → bool) (X : gset string) :
  forallb f (elements X) = true ↔ ∀ x, x ∈ X → f x = true.
Proof.
  rewrite forallb_forall. split.
  - intros Hall x Hx. apply Hall, list_elem_of_In. by rewrite elem_of_elements.
  - intros Hall x Hx. apply Hall. by rewrite <-elem_of_elements, list_elem_of_In.
Qed.

(** *** The keys Step 2 collects for a level *)

Lemma elem_structure_keys structure acc key :
  key ∈ structure_keys acc structure
  ↔ key ∈ acc
    ∨ ∃ dir_name value,
        dir_name ∈ structure ∧ Str.key_value dir_name = Some (key, value).
Proof.
  unfold structure_keys. revert acc.
  induction structure as [|dir_name structure IH]; intros acc; simpl.
  - split; [by left | intros [?|(? & ? & []%elem_of_nil & _)]; done].
  - rewrite IH. clear IH. split.
    + intros [Hacc|(dir_name' & value & Hin & Hkv)].
      * destruct (Str.key_value dir_name) as [[key' value']|] eqn:E; [|by left].
        apply elem_of_union in Hacc as [->%elem_of_singleton|Hacc]; [|by left].
        right. exists dir_name, value'. split; [left | done].
      * right. exists dir_name', value. split; [by right | done].
    + intros [Hacc|(dir_name' & value & Hin & Hkv)].
      * left. destruct (Str.key_value dir_name) as [[key' value']|]; set_solver.
      * apply elem_of_cons in Hin as [->|Hin].
        -- left. rewrite Hkv. set_solver.
        -- right. by exists dir_name', value.
Qed.

(** Step 2 takes the keys of every [key=value] name of every tuple of the
    level, the names of the ancestors included. *)
Lemma elem_partition_keys structures key :
  key ∈ partition_keys structures
  ↔ ∃ structure dir_name value,
      structure ∈ structures ∧ dir_name ∈ structure
      ∧ Str.key_value dir_name = Some (key, value).
Proof.
  unfold partition_keys.
  assert (∀ l acc,
    key ∈ foldl structure_keys acc l
    ↔ key ∈ acc ∨ ∃ structure dir_name value,
        structure ∈ l ∧ dir_name ∈ structure
        ∧ Str.key_value dir_name = Some (key, value)) as Hfold.
  { induction l as [|structure l IH]; intros acc; simpl.
    - split; [by left | intros [?|(? & ? & ? & []%elem_of_nil & _)]; done].
    - rewrite IH, elem_structure_keys. clear IH. split.
      + intros [[Hacc|(d & v & Hd & Hkv)]|(s & d & v & Hs & Hd & Hkv)].
        * by left.
        * right. exists structure, d, v. split; [left | done].
        * right. exists s, d, v. split; [by right | done].
      + intros [Hacc|(s & d & v & Hs & Hd & Hkv)]; [by left; left |].
        apply elem_of_cons in Hs as [->|Hs].
        * left. right. by exists d, v.
        * right. by exists s, d, v. }
  rewrite Hfold. split.
  - intros [Hempty|(s & d & v & Hs & Hrest)].
    + by apply not_elem_of_empty in Hempty.
    + exists s, d, v. by rewrite <-elem_of_elements.
  - intros (s & d & v & Hs & Hrest). right. exists s, d, v.
    by rewrite elem_of_elements.
Qed.

(** The key of the directory a tuple ends in is among them. *)
Lemma depth_keys_subseteq structures : depth_keys structures ⊆ partition_keys structures.
Proof.
  intros key. unfold depth_keys. rewrite elem_of_set_omap, elem_partition_keys.
  intros (structure & Hs & Hkey).
  destruct (last structure) as [name|] eqn:Hlast; simpl in Hkey; [|done].
  destruct (Str.key_value name) as [[key' value]|] eqn:Hkv; simpl in Hkey; [|done].
  injection Hkey as ->. exists structure, name, value.
  split; [done |]. split; [|done].
  apply last_Some in Hlast as [front ->]. set_solver.
Qed.

(** Step 2 is silent when no level has two keys. *)
Lemma check_levels_quiet ds st :
  (∀ level structures, (level, structures) ∈ ds → size (partition_keys structures) ≤ 1) →
  check_levels ds st = (Returned tt, st).
Proof.
  induction ds as [|[level structures] ds IH]; intros Hall; simpl; [done |].
  rewrite bool_decide_false.
  - apply IH. intros l ss Hin. apply (Hall l). by right.
  - pose proof (Hall level structures ltac:(left)). lia.
Qed.


(** Step 1 on its own terms: the report when the root paths are several
    and not all partition-style, Step 2 otherwise. *)
Lemma check_conflicting_structures_run st :
  let roots := root_paths (directory_structures st) in
  _check_conflicting_structures st
  = if bool_decide (1 < size roots
                    ∧ ¬ ∀ root, root ∈ roots → Str.contains Str.eq_sign root = true)
    then report_conflict ((λ root, [root]) <$> elements roots) st
    else check_levels (directory_structures st) st.
Proof.
  intros roots. unfold _check_conflicting_structures, mbind, M_bind, get.
  fold roots. destruct (bool_decide (1 < size roots)) eqn:Esize.
  - apply bool_decide_eq_true in Esize.
    destruct (forallb (Str.contains Str.eq_sign) (elements roots)) eqn:Eall; simpl.
    + rewrite bool_decide_false; [done |].
      intros [_ Hnot]. apply Hnot. by apply forallb_elements.
    + rewrite bool_decide_true; [done |]. split; [done |].
      intros Hall. apply forallb_elements in Hall. congruence.
  - apply bool_decide_eq_false in Esize.
    rewrite bool_decide_false; [done | tauto].
Qed.


(** C3. After the collection walk, if the distinct first path segments of
    the depth-1 tuples are more than one and not all of them contain [=],
    conflict detection appends exactly the report of Step 1 (the tagged
    header, one line for every root-level path, the remediation text; one
    entry carries the tag) and nothing of Step 2; if they are at most one,
    or all contain [=], Step 1 appends nothing and the check is Step 2. *)
Theorem C3_root_ambiguity (items : list (string * node)) :
  let st := (_validate_folder_structure (Dir items) [] init).2 in
  let segments := depth1_segments (directory_structures st) in
  let report :=
    conflict_header
    :: ((λ root, Str.tab +:+ show_path [root]) <$> elements segments)
    ++ [remediation] in
  (1 < size segments
   ∧ ¬ (∀ root, root ∈ segments → Str.contains Str.eq_sign root = true) →
   _check_conflicting_structures st = (Returned tt, add_errors report st)
   ∧ length (List.filter is_conflict_error report) = 1)
  ∧ (size segments ≤ 1
     ∨ (∀ root, root ∈ segments → Str.contains Str.eq_sign root = true) →
     _check_conflicting_structures st
     = check_levels (directory_structures st) st).
Proof.
  intros st segments report.
  destruct (validate_folder_structure_run (Dir items) [] init eq_refl)
    as (st' & Hrun & _ & _ & _ & Hrooted).
  assert (st = st') as Hst by (unfold st; by rewrite Hrun).
  assert (root_paths (directory_structures st) = segments) as Hroots.
  { apply root_paths_depth1. rewrite Hst. apply Hrooted.
    - intros level structures structure Hin. by apply elem_of_nil in Hin.
    - intros root Hroot. done. }
  pose proof (check_conflicting_structures_run st) as Hcheck.
  simpl in Hcheck. rewrite Hroots in Hcheck. rewrite Hcheck. split.
  - intros Hcond. rewrite bool_decide_true by done.
    rewrite report_conflict_run, <-list_fmap_compose. split; [done |].
    apply (report_one_tag (λ root, show_path [root])).
  - intros Hcond. rewrite bool_decide_false; [done |].
    intros [Hsize Hnot]. destruct Hcond as [Hle|Hall]; [lia | by apply Hnot].
Qed.

End Conflicts.

(** ** File validation *)

Section Files.
Context `{Externals}.

Lemma check_schema_run item s st :
  check_schema item s st
  = (Returned tt,
     add_errors (schema_errors item (schema st) s)
       (with_schema (Some (default s (schema st))) st)).
Proof.
  unfold check_schema, mbind, M_bind, get, schema_errors, add_errors, with_schema.
  destruct st as [[r|] pc pv es ds]; simpl.
  - destruct (decide (r ≠ s)) as [Hne|Heq].
    + by rewrite decide_False.
    + apply dec_stable in Heq as ->. rewrite decide_True by done.
      unfold mret, M_ret. by rewrite app_nil_r.
  - unfold set_schema, modify. simpl. by rewrite app_nil_r.
Qed.

Lemma check_partition_run item partition st :
  check_partition item partition st
  = (Returned tt,
     add_errors (partition_errors (partition_values st) item [partition]) st).
Proof.
  unfold check_partition, partition_errors, offending. simpl.
  destruct (Str.key_value partition) as [[key value]|]; simpl;
    [|by rewrite add_errors_nil].
  unfold mbind, M_bind, get.
  destruct (partition_values st !! key) as [values|]; simpl;
    [|by rewrite add_errors_nil].
  destruct (decide (value ∉ values)) as [Hout|Hin].
  - by rewrite decide_False.
  - apply dec_stable in Hin. rewrite decide_True by done.
    by rewrite add_errors_nil.
Qed.

Lemma partition_errors_cons pv item partition file_partitions :
  partition_errors pv item (partition :: file_partitions)
  = partition_errors pv item [partition] ++ partition_errors pv item file_partitions.
Proof.
  unfold partition_errors. simpl. by destruct (offending pv partition).
Qed.

Lemma check_partitions_run item file_partitions st :
  for_each (check_partition item) file_partitions st
  = (Returned tt,
     add_errors (partition_errors (partition_values st) item file_partitions) st).
Proof.
  revert st. induction file_partitions as [|partition file_partitions IH]; intros st.
  - by rewrite add_errors_nil.
  - rewrite for_each_cons, check_partition_run, IH, add_errors_app.
    simpl. by rewrite (partition_errors_cons _ _ partition file_partitions).
Qed.

(** What the [try] statement does with one data file: it always returns;
    the reference schema is kept, or taken from the file when there was
    none and the file opens; the errors are the schema mismatch, if any,
    followed by either the read error or the partition mismatches. *)
Lemma validate_file_run item meta st :
  validate_file item meta st
  = (Returned tt,
     match meta with
     | OpenFails e => add_errors [file_read_error item e] st
     | Opened s fp =>
         add_errors
           (schema_errors item (schema st) s
            ++ match fp with
               | Raised e => [file_read_error item e]
               | Returned p =>
                   partition_errors (partition_values st) item
                     (Str.split Str.slash p)
               end)
           (with_schema (Some (default s (schema st))) st)
     end).
Proof.
  unfold validate_file, try_except, check_file, mbind, M_bind.
  destruct meta as [e|s [e|p]]; simpl.
  - done.
  - rewrite check_schema_run. simpl.
    by rewrite append_error_run, add_errors_app.
  - rewrite check_schema_run. simpl.
    by rewrite check_partitions_run, add_errors_app.
Qed.

Lemma head_app_schemas (l1 l2 : list Schema) :
  head (l1 ++ l2) = match head l1 with Some s => Some s | None => head l2 end.
Proof. by destruct l1. Qed.

(** The second walk over a directory never raises, only appends errors,
    leaves the collected partitions alone, and ends with the reference
    schema it had or, failing that, the schema of the first file that
    opened. *)
Lemma validate_parquet_files_run path :
  ∀ path_names st,
    is_dir path = true →
    ∃ st',
      _validate_parquet_files path_names path st = (Returned tt, st')
      ∧ partition_values st' = partition_values st
      ∧ partition_columns st' = partition_columns st
      ∧ directory_structures st' = directory_structures st
      ∧ (∃ es, errors st' = errors st ++ es)
      ∧ schema st'
        = match schema st with
          | Some r => Some r
          | None => head (file_schemas opened_schema path)
          end.
Proof.
  induction path as [items IH|meta] using node_induction; [|done].
  intros path_names st _. simpl.
  revert st. induction IH as [|[name item] items IHitem _ IHitems]; intros st.
  - exists st. repeat split; try done.
    + exists []. by rewrite app_nil_r.
    + by destruct (schema st).
  - rewrite for_each_cons. simpl in IHitem. cbn [flat_map]. rewrite head_app_schemas.
    destruct item as [subitems|meta].
    + destruct (IHitem (path_names ++ [name]) st eq_refl)
        as (st1 & Hrun1 & Hpv1 & Hpc1 & Hds1 & [es1 He1] & Hs1).
      rewrite Hrun1.
      destruct (IHitems st1) as (st2 & Hrun2 & Hpv2 & Hpc2 & Hds2 & [es2 He2] & Hs2).
      exists st2. split; [exact Hrun2 |].
      repeat split; try congruence.
      * exists (es1 ++ es2). rewrite He2, He1. by rewrite app_assoc.
      * rewrite Hs2, Hs1. by destruct (schema st), (head _).
    + destruct (decide (Str.suffix name = ".parquet")) as [Hsuffix|Hsuffix].
      * rewrite validate_file_run.
        match goal with |- context [for_each _ items ?s] =>
          destruct (IHitems s) as (st2 & Hrun2 & Hpv2 & Hpc2 & Hds2 & [es2 He2] & Hs2)
        end.
        exists st2. split; [exact Hrun2 |].
        destruct meta as [e|s fp]; simpl in *.
        -- repeat split; try congruence.
           exists ([file_read_error (path_names ++ [name]) e] ++ es2).
           rewrite He2. by rewrite app_assoc.
        -- repeat split; try congruence.
           ++ eexists. rewrite He2. by rewrite <-app_assoc.
           ++ rewrite Hs2. by destruct (schema st).
      * destruct (IHitems st) as (st2 & Hrun2 & Hrest).
        exists st2. split; [exact Hrun2 | done].
Qed.

(** Once set, the reference schema survives the rest of the walk. *)
Lemma reference_never_reassigned path path_names st r :
  is_dir path = true → schema st = Some r →
  schema (_validate_parquet_files path_names path st).2 = Some r.
Proof.
  intros Hdir Href.
  destruct (validate_parquet_files_run path path_names st Hdir)
    as (st' & -> & _ & _ & _ & _ & Hs).
  simpl. by rewrite Hs, Href.
Qed.

(** The walk goes through the entries of a directory one after the
    other, each from the state the one before left. *)
Lemma validate_parquet_files_app path_names items1 items2 st :
  _validate_parquet_files path_names (Dir (items1 ++ items2)) st
  = _validate_parquet_files path_names (Dir items2)
      (_validate_parquet_files path_names (Dir items1) st).2.
Proof.
  destruct (validate_parquet_files_run (Dir items1) path_names st eq_refl)
    as (st1 & Hrun1 & _).
  simpl in *. rewrite for_each_app. rewrite Hrun1. done.
Qed.


Lemma with_schema_same st r : schema st = Some r → with_schema (Some r) st = st.
Proof. destruct st. simpl. by intros ->. Qed.

Lemma schema_errors_untagged item reference s :
  List.filter is_file_read_error (schema_errors item reference s) = [].
Proof.
  unfold schema_errors. destruct reference as [r|]; [|done].
  by destruct (decide (r = s)).
Qed.

Lemma partition_errors_clean pv item file_partitions :
  forallb (λ partition, bool_decide (offending pv partition = None)) file_partitions
  = true →
  partition_errors pv item file_partitions = [].
Proof.
  unfold partition_errors.
  induction file_partitions as [|partition file_partitions IH]; simpl; [done |].
  intros [Hnone%bool_decide_eq_true Hrest]%andb_true_iff.
  rewrite Hnone. by apply IH.
Qed.

(** Files that all read well, share the schema [s] and store no offending
    segment leave the error list as it was. *)
Lemma clean_files_quiet path :
  ∀ path_names st s,
    is_dir path = true →
    clean_files (partition_values st) s path = true →
    schema st = None ∨ schema st = Some s →
    ∃ st',
      _validate_parquet_files path_names path st = (Returned tt, st')
      ∧ errors st' = errors st
      ∧ partition_values st' = partition_values st
      ∧ (schema st' = None ∨ schema st' = Some s).
Proof.
  induction path as [items IH|meta] using node_induction; [|done].
  intros path_names st s _. simpl.
  revert st. induction IH as [|[name item] items IHitem _ IHitems]; intros st.
  - intros _ Href. by exists st.
  - cbn [forallb]. intros [Hitem Hrest]%andb_true_iff Href.
    rewrite for_each_cons. simpl in IHitem.
    destruct item as [subitems|meta].
    + destruct (IHitem (path_names ++ [name]) st s eq_refl Hitem Href)
        as (st1 & Hrun1 & He1 & Hpv1 & Href1).
      rewrite Hrun1. rewrite <-Hpv1 in Hrest.
      destruct (IHitems st1 Hrest Href1) as (st2 & Hrun2 & He2 & Hpv2 & Href2).
      exists st2. split; [exact Hrun2 |]. repeat split; congruence.
    + destruct (decide (Str.suffix name = ".parquet")) as [Hsuffix|Hsuffix].
      * destruct meta as [e|s' [e|p]]; try done.
        apply andb_true_iff in Hitem as [->%bool_decide_eq_true Hclean].
        rewrite validate_file_run, (partition_errors_clean _ _ _ Hclean).
        assert (schema_errors (path_names ++ [name]) (schema st) s = []) as ->.
        { unfold schema_errors. destruct Href as [->| ->]; [done |].
          by rewrite decide_True. }
        simpl. rewrite add_errors_nil.
        destruct (IHitems (with_schema (Some (default s (schema st))) st) Hrest)
          as (st2 & Hrun2 & He2 & Hpv2 & Href2).
        { right. by destruct Href as [->| ->]. }
        exists st2. split; [exact Hrun2 | done].
      * destruct (IHitems st Hrest Href) as (st2 & Hrun2 & Hrest2).
        exists st2. split; [exact Hrun2 | done].
Qed.

(** C4 (amended). The reference schema is assigned from the first file
    whose Parquet metadata opens, whether or not the stored partition path
    of that file can be read afterwards, and is never reassigned: after the
    walk it is the one there was before, or else the schema of the first
    file that opened. Every file that opens later is compared to it by
    equality only; on inequality one schema-mismatch error naming the file
    and both schemas is appended, and the file's check returns, so the walk
    goes on. *)
Theorem C4_reference_schema :
  (∀ path path_names st,
     is_dir path = true →
     ∃ st',
       _validate_parquet_files path_names path st = (Returned tt, st')
       ∧ schema st'
         = match schema st with
           | Some r => Some r
           | None => head (file_schemas opened_schema path)
           end)
  ∧ (∀ item s fp st r,
       schema st = Some r →
       ∃ rest,
         validate_file item (Opened s fp) st
         = (Returned tt,
            add_errors
              ((if decide (r = s) then [] else [schema_mismatch item r s]) ++ rest)
              st)).
Proof.
  split.
  - intros path path_names st Hdir.
    destruct (validate_parquet_files_run path path_names st Hdir)
      as (st' & Hrun & _ & _ & _ & _ & Hs).
    by exists st'.
  - intros item s fp st r Href. rewrite validate_file_run.
    rewrite Href. simpl. rewrite (with_schema_same _ _ Href). by eexists.
Qed.

(** C5. A segment of the stored partition path that contains [=], whose
    key is in the collected map and whose value is not in the set recorded
    for the key, appends one partition-value-mismatch error naming the
    file, the value and the key; a segment whose key is not in the map
    appends nothing; and a file whose path is read gets, after its schema
    check, exactly one such error per offending segment. *)
Theorem C5_partition_value_mismatch (item : list string) (st : validator) :
  (∀ partition key value values,
     Str.key_value partition = Some (key, value) →
     partition_values st !! key = Some values →
     value ∉ values →
     check_partition item partition st
     = (Returned tt, add_errors [partition_value_mismatch item value key] st))
  ∧ (∀ partition key value,
       Str.key_value partition = Some (key, value) →
       partition_values st !! key = None →
       check_partition item partition st = (Returned tt, st))
  ∧ (∀ s p,
       ∃ st',
         validate_file item (Opened s (Returned p)) st = (Returned tt, st')
         ∧ errors st'
           = errors st ++ schema_errors item (schema st) s
             ++ ((λ '(value, key), partition_value_mismatch item value key)
                 <$> omap (offending (partition_values st))
                       (Str.split Str.slash p))).
Proof.
  split; [|split].
  - intros partition key value values Hkv Hkey Hout.
    rewrite check_partition_run. unfold partition_errors, offending. simpl.
    rewrite Hkv, Hkey. by rewrite decide_False.
  - intros partition key value Hkv Hkey.
    rewrite check_partition_run. unfold partition_errors, offending. simpl.
    rewrite Hkv, Hkey. simpl. by rewrite add_errors_nil.
  - intros s p. rewrite validate_file_run. eexists. split; [done |]. done.
Qed.

(** C7. A data file whose metadata read fails appends exactly one
    file-read-error, which names the file, and its check returns: the walk
    over the directory goes on with the entries behind the file, from the
    state the file left, and returns as well. *)
Theorem C7_unreadable_file (path_names : list string)
    (before after : list (string * node)) (name : string) (meta : metadata)
    (e : string) (st : validator) :
  Str.suffix name = ".parquet" →
  read_failure meta = Some e →
  let item := path_names ++ [name] in
  let st1 := (_validate_parquet_files path_names (Dir before) st).2 in
  ∃ schema_errs st2 st3,
    validate_file item meta st1 = (Returned tt, st2)
    ∧ errors st2 = errors st1 ++ schema_errs ++ [file_read_error item e]
    ∧ List.filter is_file_read_error (schema_errs ++ [file_read_error item e])
      = [file_read_error item e]
    ∧ _validate_parquet_files path_names
        (Dir (before ++ (name, File meta) :: after)) st
      = _validate_parquet_files path_names (Dir after) st2
    ∧ _validate_parquet_files path_names (Dir after) st2 = (Returned tt, st3).
Proof.
  intros Hsuffix Hfail item st1.
  exists (match meta with
          | Opened s _ => schema_errors item (schema st1) s
          | OpenFails _ => []
          end).
  eexists.
  assert (∀ st2, ∃ st3,
    _validate_parquet_files path_names (Dir after) st2 = (Returned tt, st3)) as Hafter.
  { intros st2.
    destruct (validate_parquet_files_run (Dir after) path_names st2 eq_refl)
      as (st3 & Hrun & _). by exists st3. }
  match goal with |- ∃ st3, ?run = (_, ?st2) ∧ _ =>
    destruct (Hafter st2) as [st3 Hst3]
  end.
  exists st3. rewrite validate_file_run.
  split; [reflexivity |]. split; [|split; [|split]].
  - destruct meta as [e'|s [e'|p]]; simpl in *; try done.
    + by injection Hfail as ->.
    + injection Hfail as ->. by rewrite app_assoc.
  - rewrite List.filter_app.
    replace (List.filter is_file_read_error _) with (@nil string);
      [reflexivity |].
    destruct meta; [done | by rewrite schema_errors_untagged].
  - rewrite validate_parquet_files_app. fold st1.
    change (for_each
      (λ '(name0, item0),
         match item0 with
         | Dir _ => _validate_parquet_files (path_names ++ [name0]) item0
         | File meta0 =>
             if decide (Str.suffix name0 = ".parquet")
             then validate_file (path_names ++ [name0]) meta0
             else mret tt
         end) ((name, File meta) :: after) st1 = _validate_parquet_files path_names (Dir after)
           match meta with
           | OpenFails e0 => add_errors [file_read_error item e0] st1
           | Opened s fp =>
               add_errors
                 (schema_errors item (schema st1) s
                  ++ match fp with
                     | Raised e0 => [file_read_error item e0]
                     | Returned p =>
                         partition_errors (partition_values st1) item
                           (Str.split Str.slash p)
                     end)
                 (with_schema (Some (default s (schema st1))) st1)
           end).
    rewrite for_each_cons. rewrite decide_True by done.
    by rewrite validate_file_run.
  - exact Hst3.
Qed.

(** C9. When a file's metadata opens but its stored partition path cannot
    be read, and no reference schema was set before, the file gets a
    file-read-error and its schema is the reference from then on: it is
    still the reference at the end of the walk, and a file of another
    schema checked after it gets a schema mismatch against it. *)
Theorem C9_unreadable_sets_reference (path_names : list string) (name : string)
    (s : Schema) (e : string) (after : list (string * node)) (st : validator) :
  Str.suffix name = ".parquet" →
  schema st = None →
  let item := path_names ++ [name] in
  ∃ st1 st2,
    validate_file item (Opened s (Raised e)) st = (Returned tt, st1)
    ∧ errors st1 = errors st ++ [file_read_error item e]
    ∧ schema st1 = Some s
    ∧ _validate_parquet_files path_names
        (Dir ((name, File (Opened s (Raised e))) :: after)) st
      = (Returned tt, st2)
    ∧ schema st2 = Some s
    ∧ (∀ item' s' fp',
         s ≠ s' →
         ∃ rest,
           validate_file item' (Opened s' fp') st1
           = (Returned tt, add_errors (schema_mismatch item' s s' :: rest) st1)).
Proof.
  intros Hsuffix Href item.
  destruct (validate_parquet_files_run
              (Dir ((name, File (Opened s (Raised e))) :: after)) path_names st eq_refl)
    as (st2 & Hrun2 & _ & _ & _ & _ & Hs2).
  eexists. exists st2. rewrite validate_file_run, Href.
  split; [reflexivity |]. simpl. split; [done |]. split; [done |].
  split; [exact Hrun2 |]. split.
  - rewrite Hs2, Href. cbn [file_schemas flat_map]. by rewrite decide_True.
  - intros item' s' fp' Hne. rewrite validate_file_run. simpl.
    unfold schema_errors. rewrite decide_False by done.
    eexists. f_equal.
Qed.

End Files.

(** ** The whole run *)

Section Run.
Context `{Externals}.

Lemma add_partition_insert key value (pv : gmap string (gset string)) :
  add_partition key value pv
  = <[key := {[value]} ∪ default ∅ (pv !! key)]> pv.
Proof.
  unfold add_partition. destruct (decide (key ∈ dom pv)) as [Hin|Hout]; [done |].
  apply not_elem_of_dom in Hout.
  by rewrite lookup_insert_eq, insert_insert_eq, Hout.
Qed.

(** C2 (amended). A directory contributes a partition pair exactly when
    its name contains at least one [=]: the name is cut at the first [=],
    the key in front of it joins the key set and the value behind it (with
    any further [=] it contains) joins the set of that key; a name without
    [=] contributes nothing. *)
Theorem C2_partition_pair (name : string) (new_structure : list string)
    (st : validator) :
  let st' := (record_directory name new_structure st).2 in
  let key := Str.before Str.eq_sign name in
  let value := Str.after Str.eq_sign name in
  (1 ≤ Str.count Str.eq_sign name →
   name = key +:+ String Str.eq_sign value
   ∧ Str.contains Str.eq_sign key = false
   ∧ partition_columns st' = {[key]} ∪ partition_columns st
   ∧ partition_values st'
     = <[key := {[value]} ∪ default ∅ (partition_values st !! key)]>
         (partition_values st))
  ∧ (Str.count Str.eq_sign name = 0 →
     partition_columns st' = partition_columns st
     ∧ partition_values st' = partition_values st).
Proof.
  intros st' key value. unfold st'. rewrite record_directory_run. simpl. split.
  - intros Hcount. assert (Str.contains Str.eq_sign name = true) as Hsign
      by (apply contains_count; lia).
    destruct (before_after _ _ Hsign) as [Hname Hkey].
    rewrite (key_value_contains _ Hsign), add_partition_insert. done.
  - intros Hcount%contains_false_count. by rewrite (key_value_no_sign _ Hcount).
Qed.

(** The collection walk from a fresh validator. *)
Lemma collection_run items :
  ∃ st,
    _validate_folder_structure (Dir items) [] init = (Returned tt, st)
    ∧ schema st = None ∧ errors st = []
    ∧ well_rooted (directory_structures st).
Proof.
  destruct (validate_folder_structure_run (Dir items) [] init eq_refl)
    as (st & Hrun & Hs & He & _ & Hrooted).
  exists st. repeat split; try done. apply Hrooted.
  - intros level structures structure Hin. by apply elem_of_nil in Hin.
  - by intros root Hroot.
Qed.

(** A run that finds nothing: if, after the collection walk, the first
    names at depth 1 do not form an ambiguous root, no level has two keys
    as Step 2 counts them (over all the names of its tuples), and every
    data file reads well, has the one schema and stores no offending
    segment, then conflict detection appends nothing and [validate]
    succeeds. *)
Lemma quiet_layout_validates (items : list (string * node)) (s : Schema) :
  let st := (_validate_folder_structure (Dir items) [] init).2 in
  let ds := directory_structures st in
  (size (depth1_segments ds) ≤ 1
   ∨ ∀ root, root ∈ depth1_segments ds → Str.contains Str.eq_sign root = true) →
  (∀ level structures,
     (level, structures) ∈ ds → size (partition_keys structures) ≤ 1) →
  clean_files (partition_values st) s (Dir items) = true →
  _check_conflicting_structures st = (Returned tt, st)
  ∧ ∃ st',
      validate (Some (Dir items)) init = (Returned true, st')
      ∧ errors st' = []
      ∧ main (Some (Dir items)) = 0.
Proof.
  intros st ds Hroot Hkeys Hclean.
  destruct (collection_run items) as (st0 & Hrun & Hs & He & Hrooted).
  assert (st = st0) as Hst by (unfold st; by rewrite Hrun).
  clearbody st. subst st0.
  assert (_check_conflicting_structures st = (Returned tt, st)) as Hcheck.
  { pose proof (check_conflicting_structures_run st) as Hstep.
    simpl in Hstep. rewrite Hstep, (root_paths_depth1 _ Hrooted).
    fold ds. rewrite bool_decide_false.
    - by apply check_levels_quiet.
    - intros [Hsize Hnot]. destruct Hroot as [Hle|Hall]; [lia | by apply Hnot]. }
  split; [done |].
  destruct (clean_files_quiet (Dir items) [] st s eq_refl Hclean (or_introl Hs))
    as (st' & Hfiles & He' & _ & _).
  assert (validate (Some (Dir items)) init = (Returned true, st')) as Hvalidate.
  { unfold validate, try_except, mbind, M_bind.
    rewrite Hrun, Hcheck, Hfiles. unfold get. by rewrite He', He. }
  exists st'. split; [done |]. split; [congruence |].
  unfold main. by rewrite Hvalidate.
Qed.

Lemma errors_appended es e : es ++ [e] ≠ ([] : list string).
Proof. by destruct es. Qed.

(** C6. [validate] always returns, and it returns success exactly when
    the error list is empty at the end; the process exits with a non-zero
    code exactly when that list is not empty. *)
Theorem C6_success_iff_no_errors (base_path : option node) (st : validator) :
  (∃ success st',
     validate base_path st = (Returned success, st')
     ∧ (success = true ↔ errors st' = []))
  ∧ (main base_path ≠ 0 ↔ errors (validate base_path init).2 ≠ []).
Proof.
  assert (∀ st0, ∃ success st',
    validate base_path st0 = (Returned success, st')
    ∧ (success = true ↔ errors st' = [])) as Hvalidate.
  { intros st0. unfold validate, try_except, mbind, M_bind.
    destruct base_path as [root|].
    - destruct (_validate_folder_structure root [] st0) as [[e|[]] st1].
      { eexists false, _. split; [reflexivity |]. simpl.
        split; [done | intros Hnil; by apply errors_appended in Hnil]. }
      destruct (_check_conflicting_structures st1) as [[e|[]] st2].
      { eexists false, _. split; [reflexivity |]. simpl.
        split; [done | intros Hnil; by apply errors_appended in Hnil]. }
      destruct (_validate_parquet_files [] root st2) as [[e|[]] st3].
      { eexists false, _. split; [reflexivity |]. simpl.
        split; [done | intros Hnil; by apply errors_appended in Hnil]. }
      unfold get. destruct (errors st3) as [|e es] eqn:He.
      + exists true, st3. by split.
      + exists false, st3. split; [done |]. by rewrite He.
    - eexists false, _. split; [reflexivity |]. simpl.
      split; [done | intros Hnil; by apply errors_appended in Hnil]. }
  split; [apply Hvalidate |].
  destruct (Hvalidate init) as (success & st' & Hrun & Hiff).
  unfold main. rewrite Hrun. simpl. destruct success.
  - split; [done |]. intros Hne. destruct Hne. by apply Hiff.
  - split; [|done]. intros _ Hnil. by apply Hiff in Hnil.
Qed.

(** C8. When the base path does not exist, [validate] fails with the one
    missing-path error and leaves everything else of the object as it was:
    no tuple is collected, no conflict looked for, no file opened. *)
Theorem C8_missing_path (st : validator) :
  validate None st
  = (Returned false,
     add_errors ["Base path " +:+ show_path [] +:+ " does not exist"] st)
  ∧ errors (validate None init).2
    = ["Base path " +:+ show_path [] +:+ " does not exist"]
  ∧ main None = 1.
Proof. done. Qed.

(** C10. When the base path exists but is not a directory, [validate]
    does not report a missing path: the first walk raises at once, the one
    catch-all error is recorded, nothing else of the object changes, and
    [validate] fails. *)
Theorem C10_root_not_a_directory (meta : metadata) (st : validator) :
  validate (Some (File meta)) st
  = (Returned false,
     add_errors ["Unexpected error during validation: " +:+ iterdir_error] st)
  ∧ errors (validate (Some (File meta)) init).2
    = ["Unexpected error during validation: " +:+ iterdir_error]
  ∧ main (Some (File meta)) = 1.
Proof. done. Qed.

End Run.

(** ** The first walk as a whole *)

Section Collection.
Context `{Externals}.

Lemma dir_paths_nonempty path p : p ∈ dir_paths path → p ≠ [].
Proof.
  revert p. induction path as [items IH|meta] using node_induction; intros p;
    [|by intros ?%elem_of_nil].
  simpl. induction IH as [|[name item] items IHitem _ IHitems]; simpl.
  - by intros ?%elem_of_nil.
  - intros [Hp|Hp]%elem_of_app; [|by apply IHitems].
    destruct (is_dir item); [|by apply elem_of_nil in Hp].
    apply elem_of_cons in Hp as [->|Hp]; [done |].
    apply list_elem_of_fmap in Hp as (q & -> & _). done.
Qed.

Lemma record_path_cons current_structure name p st :
  p ≠ [] →
  record_path current_structure st (name :: p)
  = record_path (current_structure ++ [name]) st p.
Proof.
  intros Hp. unfold record_path. destruct p as [|first rest]; [done |].
  change (last (name :: first :: rest)) with (last (first :: rest)).
  by rewrite <-app_assoc.
Qed.

Lemma foldl_record_path_cons current_structure name paths st :
  (∀ p, p ∈ paths → p ≠ []) →
  foldl (record_path current_structure) st ((name ::.) <$> paths)
  = foldl (record_path (current_structure ++ [name])) st paths.
Proof.
  revert st. induction paths as [|p paths IH]; intros st Hne; [done |].
  simpl. rewrite record_path_cons by (apply Hne; left).
  apply IH. intros q Hq. apply Hne. by right.
Qed.

(** The first walk over a directory never raises and records every
    directory below it exactly once, in pre-order: its effect is the
    effect of lines 53-67 on each directory in turn. *)
Lemma collection_is_fold (path : node) :
  ∀ current_structure st,
    is_dir path = true →
    _validate_folder_structure path current_structure st
    = (Returned tt, foldl (record_path current_structure) st (dir_paths path)).
Proof.
  induction path as [items IH|meta] using node_induction; [|done].
  intros current_structure st _. simpl.
  revert st. induction IH as [|[name item] items IHitem _ IHitems]; intros st.
  - done.
  - rewrite for_each_cons. cbn [flat_map]. rewrite foldl_app.
    simpl in IHitem. destruct (is_dir item) eqn:Hdir.
    + unfold mbind at 1, M_bind at 1. rewrite record_directory_run.
      rewrite (IHitem _ _ eq_refl). cbn [foldl].
      rewrite foldl_record_path_cons by apply dir_paths_nonempty.
      change (record_path current_structure st [name])
        with (record_directory name (current_structure ++ [name]) st).2.
      rewrite record_directory_run.
      apply IHitems.
    + apply IHitems.
Qed.


(** A property that holds where the walk stands is carried through the
    whole walk if recording a directory carries it down into the
    directory, and it can be carried back up. *)
Lemma collection_invariant (Q : list string → validator → Prop) :
  (∀ current_structure name st,
     Q current_structure st →
     Q (current_structure ++ [name])
       (record_directory name (current_structure ++ [name]) st).2) →
  (∀ current_structure name st,
     Q (current_structure ++ [name]) st → Q current_structure st) →
  ∀ path current_structure st,
    Q current_structure st →
    Q current_structure (foldl (record_path current_structure) st (dir_paths path)).
Proof.
  intros Hdown Hup.
  induction path as [items IH|meta] using node_induction; [|done].
  intros current_structure st. simpl.
  revert st. induction IH as [|[name item] items IHitem _ IHitems]; intros st HQ.
  - done.
  - cbn [flat_map]. rewrite foldl_app. apply IHitems.
    simpl in IHitem. destruct (is_dir item); [|done].
    cbn [foldl]. rewrite foldl_record_path_cons by apply dir_paths_nonempty.
    apply (Hup _ name), IHitem.
    change (record_path current_structure st [name])
      with (record_directory name (current_structure ++ [name]) st).2.
    by apply Hdown.
Qed.

Lemma record_path_structures current_structure st p :
  p ≠ [] →
  directory_structures (record_path current_structure st p)
  = track_structure (current_structure ++ p) (directory_structures st).
Proof.
  intros Hp. unfold record_path.
  destruct (last p) as [name|] eqn:Hlast.
  - by rewrite record_directory_run.
  - by apply last_None in Hlast.
Qed.

Lemma foldl_record_path_tuples current_structure paths :
  ∀ st level structure,
    (∀ p, p ∈ paths → p ≠ []) →
    structure ∈ level_set level
      (directory_structures (foldl (record_path current_structure) st paths))
    ↔ structure ∈ level_set level (directory_structures st)
      ∨ ∃ p, p ∈ paths ∧ structure = current_structure ++ p
             ∧ length structure = level.
Proof.
  induction paths as [|p paths IH]; intros st level structure Hne.
  - simpl. split; [by left | intros [?|(p & Hp%elem_of_nil & _)]; done].
  - cbn [foldl]. rewrite IH by (intros q Hq; apply Hne; by right).
    rewrite record_path_structures by (apply Hne; left).
    rewrite level_set_track. split.
    + intros [Hin|(q & Hq & Hs & Hl)].
      * case_decide as Hlevel.
        -- apply elem_of_union in Hin as [->%elem_of_singleton|Hin]; [|by left].
           right. exists p. split; [left | done].
        -- by left.
      * right. exists q. split; [by right | done].
    + intros [Hin|(q & Hq & Hs & Hl)].
      * left. case_decide; [by apply elem_of_union_r | done].
      * apply elem_of_cons in Hq as [->|Hq].
        -- left. subst structure. rewrite decide_True by done.
           by apply elem_of_union_l, elem_of_singleton.
        -- right. by exists q.
Qed.

(** X1. After the first walk the tuples stored for a level are the ones
    that were there before and, for every directory below the walked one,
    the tuple of its names, stored under its own length: each directory
    contributes exactly its path, under its depth, and nothing else is
    stored. *)
Theorem collected_tuples (items : list (string * node))
    (current_structure : list string) (st : validator)
    (level : nat) (structure : list string) :
  let st' := (_validate_folder_structure (Dir items) current_structure st).2 in
  structure ∈ level_set level (directory_structures st')
  ↔ structure ∈ level_set level (directory_structures st)
    ∨ ∃ p, p ∈ dir_paths (Dir items) ∧ structure = current_structure ++ p
           ∧ length structure = level.
Proof.
  intros st'. unfold st'. rewrite collection_is_fold by done.
  apply foldl_record_path_tuples, dir_paths_nonempty.
Qed.

(** *** The order of the levels *)

Lemma levels_set (level : nat) (structures : gset (list string)) ds :
  levels (Dict.set level structures ds)
  = if Dict.mem level ds then levels ds else levels ds ++ [level].
Proof.
  unfold levels, Dict.mem.
  induction ds as [|[l ss] ds IH]; [done |].
  cbn [Dict.set Dict.get]. destruct (decide (l = level)) as [->|Hne]; [done |].
  rewrite !fmap_cons, IH. by destruct (Dict.get level ds).
Qed.

Lemma mem_levels (level : nat) (ds : list (nat * gset (list string))) :
  Dict.mem level ds = true ↔ level ∈ levels ds.
Proof.
  unfold levels, Dict.mem.
  induction ds as [|[l ss] ds IH]; simpl.
  - split; [done | by intros ?%elem_of_nil].
  - destruct (decide (l = level)) as [->|Hne].
    + split; [intros _; left | done].
    + rewrite IH. split; [by right |].
      by intros [?|?]%elem_of_cons.
Qed.

Lemma levels_track new_structure ds :
  levels (track_structure new_structure ds)
  = if Dict.mem (length new_structure) ds then levels ds
    else levels ds ++ [length new_structure].
Proof.
  unfold track_structure. rewrite levels_set.
  destruct (Dict.mem (length new_structure) ds) eqn:Hmem.
  - by rewrite Hmem.
  - rewrite levels_set, Hmem.
    replace (Dict.mem _ (Dict.set _ _ ds)) with true; [done |].
    symmetry. apply mem_get. rewrite get_set_eq. by eexists.
Qed.

Lemma foldl_record_path_levels current_structure paths :
  ∀ st level,
    (∀ p, p ∈ paths → p ≠ []) →
    level ∈ levels (directory_structures
                      (foldl (record_path current_structure) st paths))
    ↔ level ∈ levels (directory_structures st)
      ∨ ∃ p, p ∈ paths ∧ length (current_structure ++ p) = level.
Proof.
  induction paths as [|p paths IH]; intros st level Hne.
  - simpl. split; [by left | intros [?|(p & Hp%elem_of_nil & _)]; done].
  - cbn [foldl]. rewrite IH by (intros q Hq; apply Hne; by right).
    rewrite record_path_structures by (apply Hne; left).
    rewrite levels_track. split.
    + intros [Hin|(q & Hq & Hl)].
      * destruct (Dict.mem _ _); [by left |].
        apply elem_of_app in Hin as [Hin|Hin%list_elem_of_singleton]; [by left |].
        right. exists p. split; [left | done].
      * right. exists q. split; [by right | done].
    + intros [Hin|(q & Hq & Hl)].
      * left. destruct (Dict.mem _ _); [done |]. apply elem_of_app. by left.
      * apply elem_of_cons in Hq as [->|Hq].
        -- left. destruct (Dict.mem _ _) eqn:Hmem.
           ++ apply mem_levels in Hmem. by rewrite <-Hl.
           ++ apply elem_of_app. right. by apply list_elem_of_singleton.
        -- right. by exists q.
Qed.

Lemma collected_levels_seq (items : list (string * node)) :
  ∃ n,
    levels (directory_structures
              (_validate_folder_structure (Dir items) [] init).2)
    = seq 1 n.
Proof.
  rewrite collection_is_fold by done. simpl.
  pose (Q := λ (current_structure : list string) (st : validator),
    ∃ n, levels (directory_structures st) = seq 1 n
         ∧ length current_structure ≤ n).
  assert (Q [] (foldl (record_path []) init (dir_paths (Dir items)))) as (n & Hn & _).
  { apply collection_invariant.
    - intros current_structure name st (n & Hn & Hlen).
      rewrite record_directory_run. unfold Q. cbn [snd directory_structures].
      rewrite levels_track, length_app. cbn [length].
      destruct (Dict.mem _ _) eqn:Hmem.
      + exists n. split; [done |].
        apply mem_levels in Hmem. rewrite Hn in Hmem.
        apply elem_of_seq in Hmem. lia.
      + exists (S n). split; [|lia].
        assert (length current_structure + 1 = S n) as ->.
        { destruct (decide (length current_structure + 1 ≤ n)) as [Hle|]; [|lia].
          assert (Dict.mem (length current_structure + 1)
                    (directory_structures st) = true) as Hyes.
          { apply mem_levels. rewrite Hn. apply elem_of_seq. lia. }
          congruence. }
        rewrite Hn. by rewrite seq_S.
    - intros current_structure name st (n & Hn & Hlen).
      exists n. split; [done |]. rewrite length_app in Hlen. lia.
    - exists 0. by split. }
  by exists n.
Qed.


(** X2. From a fresh validator the first walk creates the levels in the
    order 1, 2, ..., n, where a level exists exactly when some directory
    lies at that depth: the dictionary of tuples, which Step 2 reads in
    insertion order, lists the depths in ascending order, without gaps
    and without empty levels. *)
Theorem levels_ascending (items : list (string * node)) :
  ∃ n,
    levels (directory_structures
              (_validate_folder_structure (Dir items) [] init).2)
    = seq 1 n
    ∧ ∀ level,
        1 ≤ level ≤ n ↔ ∃ p, p ∈ dir_paths (Dir items) ∧ length p = level.
Proof.
  destruct (collected_levels_seq items) as [n Hn].
  exists n. split; [done |]. intros level.
  rewrite collection_is_fold in Hn by done. cbn [snd] in Hn.
  pose proof (foldl_record_path_levels [] (dir_paths (Dir items)) init level
                (dir_paths_nonempty (Dir items))) as Hlevel.
  rewrite Hn in Hlevel. split.
  - intros Hle. destruct (proj1 Hlevel) as [Hin|Hex]; [| |done].
    + apply elem_of_seq. lia.
    + by apply elem_of_nil in Hin.
  - intros Hex. pose proof (proj2 Hlevel (or_intror Hex)) as Hin.
    apply elem_of_seq in Hin. lia.
Qed.




(** *** The partitions the walk collects *)

Lemma record_path_partitions current_structure st p :
  partition_columns (record_path current_structure st p)
  = match last p ≫= Str.key_value with
    | Some (key, _) => {[key]} ∪ partition_columns st
    | None => partition_columns st
    end
  ∧ partition_values (record_path current_structure st p)
    = match last p ≫= Str.key_value with
      | Some (key, value) =>
          <[key := {[value]} ∪ default ∅ (partition_values st !! key)]>
            (partition_values st)
      | None => partition_values st
      end.
Proof.
  unfold record_path. destruct (last p) as [name|]; [|done].
  rewrite record_directory_run. simpl.
  destruct (Str.key_value name) as [[key value]|]; [|done].
  by rewrite add_partition_insert.
Qed.

Lemma foldl_record_path_partitions current_structure paths :
  ∀ st,
    let st' := foldl (record_path current_structure) st paths in
    (∀ key,
       key ∈ partition_columns st'
       ↔ key ∈ partition_columns st
         ∨ ∃ p name value,
             p ∈ paths ∧ last p = Some name
             ∧ Str.key_value name = Some (key, value))
    ∧ (∀ key,
         key ∈ dom (partition_values st')
         ↔ key ∈ dom (partition_values st)
           ∨ ∃ p name value,
               p ∈ paths ∧ last p = Some name
               ∧ Str.key_value name = Some (key, value))
    ∧ (∀ key value,
         value ∈ default ∅ (partition_values st' !! key)
         ↔ value ∈ default ∅ (partition_values st !! key)
           ∨ ∃ p name,
               p ∈ paths ∧ last p = Some name
               ∧ Str.key_value name = Some (key, value)).
Proof.
  induction paths as [|p paths IH]; intros st; cbn [foldl].
  - repeat split; try (by left);
      intros [?|Hex]; try done;
      [destruct Hex as (? & ? & ? & []%elem_of_nil & _)
      |destruct Hex as (? & ? & ? & []%elem_of_nil & _)
      |destruct Hex as (? & ? & []%elem_of_nil & _)].
  - destruct (IH (record_path current_structure st p)) as (Hpc & Hdom & Hpv).
    destruct (record_path_partitions current_structure st p) as [Epc Epv].
    split; [|split].
    + intros key. rewrite Hpc, Epc. split.
      * intros [Hin|(q & name & value & Hq & Hrest)].
        -- destruct (last p) as [name|] eqn:Hlast; simpl in Hin; [|by left].
           destruct (Str.key_value name) as [[key' value']|] eqn:Hkv; [|by left].
           apply elem_of_union in Hin as [->%elem_of_singleton|Hin]; [|by left].
           right. exists p, name, value'. split; [left | done].
        -- right. exists q, name, value. split; [by right | done].
      * intros [Hin|(q & name & value & Hq & Hlast & Hkv)].
        -- left. destruct (last p ≫= Str.key_value) as [[key' value']|];
             [by apply elem_of_union_r | done].
        -- apply elem_of_cons in Hq as [->|Hq].
           ++ left. rewrite Hlast. simpl. rewrite Hkv.
              by apply elem_of_union_l, elem_of_singleton.
           ++ right. by exists q, name, value.
    + intros key. rewrite Hdom, Epv. split.
      * intros [Hin|(q & name & value & Hq & Hrest)].
        -- destruct (last p) as [name|] eqn:Hlast; simpl in Hin; [|by left].
           destruct (Str.key_value name) as [[key' value']|] eqn:Hkv; [|by left].
           rewrite dom_insert_L in Hin.
           apply elem_of_union in Hin as [->%elem_of_singleton|Hin]; [|by left].
           right. exists p, name, value'. split; [left | done].
        -- right. exists q, name, value. split; [by right | done].
      * intros [Hin|(q & name & value & Hq & Hlast & Hkv)].
        -- left. destruct (last p ≫= Str.key_value) as [[key' value']|]; [|done].
           rewrite dom_insert_L. by apply elem_of_union_r.
        -- apply elem_of_cons in Hq as [->|Hq].
           ++ left. rewrite Hlast. simpl. rewrite Hkv, dom_insert_L.
              by apply elem_of_union_l, elem_of_singleton.
           ++ right. by exists q, name, value.
    + intros key value. rewrite Hpv, Epv. split.
      * intros [Hin|(q & name & Hq & Hrest)].
        -- destruct (last p) as [name|] eqn:Hlast; simpl in Hin; [|by left].
           destruct (Str.key_value name) as [[key' value']|] eqn:Hkv; [|by left].
           destruct (decide (key' = key)) as [->|Hne].
           ++ rewrite lookup_insert_eq in Hin. simpl in Hin.
              apply elem_of_union in Hin as [->%elem_of_singleton|Hin]; [|by left].
              right. exists p, name. split; [left | done].
           ++ rewrite lookup_insert_ne in Hin by done. by left.
        -- right. exists q, name. split; [by right | done].
      * intros [Hin|(q & name & Hq & Hlast & Hkv)].
        -- left. destruct (last p ≫= Str.key_value) as [[key' value']|]; [|done].
           destruct (decide (key' = key)) as [->|Hne].
           ++ rewrite lookup_insert_eq. simpl. by apply elem_of_union_r.
           ++ by rewrite lookup_insert_ne.
        -- apply elem_of_cons in Hq as [->|Hq].
           ++ left. rewrite Hlast. simpl. rewrite Hkv, lookup_insert_eq. simpl.
              by apply elem_of_union_l, elem_of_singleton.
           ++ right. by exists q, name.
Qed.

(** X4. After the first walk a key is among the partition columns, and
    among the keys of the value map, exactly when it was before or some
    directory below the walked one is named [key=...]; a value is in the
    set of a key exactly when it was before or some directory is named
    [key=value]. *)
Theorem collected_partitions (items : list (string * node))
    (current_structure : list string) (st : validator) :
  let st' := (_validate_folder_structure (Dir items) current_structure st).2 in
  (∀ key,
     key ∈ partition_columns st'
     ↔ key ∈ partition_columns st
       ∨ ∃ p name value,
           p ∈ dir_paths (Dir items) ∧ last p = Some name
           ∧ Str.key_value name = Some (key, value))
  ∧ (∀ key,
       key ∈ dom (partition_values st')
       ↔ key ∈ dom (partition_values st)
         ∨ ∃ p name value,
             p ∈ dir_paths (Dir items) ∧ last p = Some name
             ∧ Str.key_value name = Some (key, value))
  ∧ (∀ key value,
       value ∈ default ∅ (partition_values st' !! key)
       ↔ value ∈ default ∅ (partition_values st !! key)
         ∨ ∃ p name,
             p ∈ dir_paths (Dir items) ∧ last p = Some name
             ∧ Str.key_value name = Some (key, value)).
Proof.
  intros st'. unfold st'. rewrite collection_is_fold by done.
  apply foldl_record_path_partitions.
Qed.


(** *** The order of the siblings *)

Lemma validator_eq (st1 st2 : validator) :
  schema st1 = schema st2 →
  partition_columns st1 = partition_columns st2 →
  partition_values st1 = partition_values st2 →
  errors st1 = errors st2 →
  directory_structures st1 = directory_structures st2 →
  st1 = st2.
Proof. destruct st1, st2. simpl. by intros -> -> -> -> ->. Qed.

Lemma get_not_level (level : nat) (ds : list (nat * gset (list string))) :
  level ∉ levels ds → Dict.get level ds = None.
Proof.
  intros Hnot. destruct (Dict.get level ds) eqn:Hget; [|done].
  destruct Hnot. apply mem_levels, mem_get. by rewrite Hget.
Qed.

(** Two dictionaries with the same keys in the same order and the same
    values are the same dictionary. *)
Lemma dict_ext (ds1 ds2 : list (nat * gset (list string))) :
  levels ds1 = levels ds2 → NoDup (levels ds1) →
  (∀ level, Dict.get level ds1 = Dict.get level ds2) →
  ds1 = ds2.
Proof.
  unfold levels. revert ds2.
  induction ds1 as [|[l ss] ds1 IH]; intros [|[l' ss'] ds2]; try done.
  rewrite !fmap_cons. intros [= <- Hlevels] [Hl Hnodup]%NoDup_cons Hget.
  pose proof (Hget l) as Hhead. simpl in Hhead.
  rewrite !decide_True in Hhead by done. injection Hhead as <-.
  f_equal. apply IH; [done | done |].
  intros level. destruct (decide (l = level)) as [<-|Hne].
  - rewrite (get_not_level l ds1), (get_not_level l ds2);
      [done | unfold levels; by rewrite <-Hlevels | done].
  - specialize (Hget level). simpl in Hget.
    by rewrite !decide_False in Hget by done.
Qed.

Lemma get_level_set (level : nat) (ds : list (nat * gset (list string))) :
  level ∈ levels ds → Dict.get level ds = Some (level_set level ds).
Proof.
  intros Hin%mem_levels%mem_get. unfold level_set.
  by destruct Hin as [structures ->].
Qed.

(** X5. The order in which [iterdir] lists the entries does not matter
    to the first walk: two trees with the same directories, listed in any
    order at any depth, leave a fresh validator in the same state. *)
Theorem collection_order_irrelevant (items items' : list (string * node)) :
  (∀ p, p ∈ dir_paths (Dir items) ↔ p ∈ dir_paths (Dir items')) →
  _validate_folder_structure (Dir items) [] init
  = _validate_folder_structure (Dir items') [] init.
Proof.
  intros Hsame.
  destruct (validate_folder_structure_run (Dir items) [] init eq_refl)
    as (st1 & Hrun1 & Hs1 & He1 & _).
  destruct (validate_folder_structure_run (Dir items') [] init eq_refl)
    as (st2 & Hrun2 & Hs2 & He2 & _).
  pose proof (foldl_record_path_partitions [] (dir_paths (Dir items)) init)
    as (Hpc1 & Hdom1 & Hpv1).
  pose proof (foldl_record_path_partitions [] (dir_paths (Dir items')) init)
    as (Hpc2 & Hdom2 & Hpv2).
  pose proof (λ level structure,
    foldl_record_path_tuples [] (dir_paths (Dir items)) init level structure
      (dir_paths_nonempty (Dir items))) as Ht1.
  pose proof (λ level structure,
    foldl_record_path_tuples [] (dir_paths (Dir items')) init level structure
      (dir_paths_nonempty (Dir items'))) as Ht2.
  destruct (collected_levels_seq items) as [n1 Hn1].
  destruct (collected_levels_seq items') as [n2 Hn2].
  pose proof (foldl_record_path_levels [] (dir_paths (Dir items)) init) as Hl1.
  pose proof (foldl_record_path_levels [] (dir_paths (Dir items')) init) as Hl2.
  assert (foldl (record_path []) init (dir_paths (Dir items)) = st1) as Hfold1.
  { pose proof (collection_is_fold (Dir items) [] init eq_refl) as Hfold.
    rewrite Hrun1 in Hfold. by injection Hfold. }
  assert (foldl (record_path []) init (dir_paths (Dir items')) = st2) as Hfold2.
  { pose proof (collection_is_fold (Dir items') [] init eq_refl) as Hfold.
    rewrite Hrun2 in Hfold. by injection Hfold. }
  rewrite Hfold1 in Hl1, Hpc1, Hdom1, Hpv1, Ht1.
  rewrite Hfold2 in Hl2, Hpc2, Hdom2, Hpv2, Ht2. clear Hfold1 Hfold2.
  rewrite Hrun1 in *. rewrite Hrun2 in *. simpl in *.
  f_equal. apply validator_eq.
  - congruence.
  - apply set_eq. intros key. rewrite Hpc1, Hpc2.
    by setoid_rewrite Hsame.
  - assert (∀ key, key ∈ dom (partition_values st1)
                   ↔ key ∈ dom (partition_values st2)) as Hdom.
    { intros key. rewrite Hdom1, Hdom2. by setoid_rewrite Hsame. }
    assert (∀ key, default ∅ (partition_values st1 !! key)
                   = default ∅ (partition_values st2 !! key)) as Hval.
    { intros key. apply set_eq. intros value. rewrite Hpv1, Hpv2.
      by setoid_rewrite Hsame. }
    apply map_eq. intros key. specialize (Hdom key). specialize (Hval key).
    rewrite !elem_of_dom in Hdom.
    destruct (partition_values st1 !! key) as [values1|],
             (partition_values st2 !! key) as [values2|]; simpl in *.
    + by rewrite Hval.
    + destruct (proj1 Hdom) as [? ?]; [by eexists | done].
    + destruct (proj2 Hdom) as [? ?]; [by eexists | done].
    + done.
  - congruence.
  - assert (∀ level, level ∈ levels (directory_structures st1)
                     ↔ level ∈ levels (directory_structures st2)) as Hlevels.
    { intros level.
      rewrite Hl1 by apply (dir_paths_nonempty (Dir items)).
      rewrite Hl2 by apply (dir_paths_nonempty (Dir items')).
      by setoid_rewrite Hsame. }
    assert (n1 = n2) as <-.
    { destruct (decide (n1 = n2)) as [|Hne]; [done |]. exfalso.
      destruct (decide (n1 < n2)).
      - assert (n2 ∈ levels (directory_structures st1)) as Hin
          by (apply Hlevels; rewrite Hn2; apply elem_of_seq; lia).
        rewrite Hn1 in Hin. apply elem_of_seq in Hin. lia.
      - assert (n1 ∈ levels (directory_structures st2)) as Hin
          by (apply Hlevels; rewrite Hn1; apply elem_of_seq; lia).
        rewrite Hn2 in Hin. apply elem_of_seq in Hin. lia. }
    apply dict_ext.
    + congruence.
    + rewrite Hn1. apply NoDup_seq.
    + intros level.
      destruct (decide (level ∈ levels (directory_structures st1))) as [Hin|Hout].
      * rewrite !get_level_set by (done || by apply Hlevels).
        f_equal. apply set_eq. intros structure. rewrite Ht1, Ht2.
        by setoid_rewrite Hsame.
      * rewrite !get_not_level; [done | by rewrite <-Hlevels | done].
Qed.

(** X6. Files do not exist for the first walk: an entry that is a file
    can be taken out of a directory listing without changing what the
    walk does. *)
Theorem collection_ignores_files (before after : list (string * node))
    (name : string) (meta : metadata) (current_structure : list string)
    (st : validator) :
  _validate_folder_structure (Dir (before ++ (name, File meta) :: after))
    current_structure st
  = _validate_folder_structure (Dir (before ++ after)) current_structure st.
Proof.
  rewrite !collection_is_fold by done. do 2 f_equal.
  simpl. by rewrite !flat_map_app.
Qed.

End Collection.

(** ** The phases and how they compose *)

Section Phases.
Context `{Externals}.

(** Step 2 never raises and appends nothing or one report. *)
Lemma check_levels_appends ds st :
  ∃ es,
    check_levels ds st = (Returned tt, add_errors es st)
    ∧ (es = []
       ∨ ∃ paths,
           es = conflict_header
                :: ((λ p, Str.tab +:+ show_path p) <$> paths) ++ [remediation]).
Proof.
  induction ds as [|[level structures] ds IH]; simpl.
  - exists []. rewrite add_errors_nil. by split; [|left].
  - case_bool_decide; [|done].
    eexists. rewrite report_conflict_run. split; [done |]. right. by eexists.
Qed.

(** Conflict detection never raises and appends nothing or one report. *)
Lemma check_conflicting_structures_appends st :
  ∃ es,
    _check_conflicting_structures st = (Returned tt, add_errors es st)
    ∧ (es = []
       ∨ ∃ paths,
           es = conflict_header
                :: ((λ p, Str.tab +:+ show_path p) <$> paths) ++ [remediation]).
Proof.
  pose proof (check_conflicting_structures_run st) as Hrun. simpl in Hrun.
  rewrite Hrun. case_bool_decide; [|apply check_levels_appends].
  eexists. rewrite report_conflict_run. split; [done |]. right. by eexists.
Qed.

(** X7. Conflict detection never raises; it leaves the schema, the
    partitions and the tuples as they are and only appends to the errors;
    and what it appends holds at most one entry with the
    conflicting-structure tag, whether Step 1 or Step 2 reports. *)
Theorem at_most_one_conflict_error (st : validator) :
  ∃ es,
    _check_conflicting_structures st
    = (Returned tt,
       Validator _ (schema st) (partition_columns st) (partition_values st)
         (errors st ++ es) (directory_structures st))
    ∧ length (List.filter is_conflict_error es) ≤ 1.
Proof.
  destruct (check_conflicting_structures_appends st) as (es & Hrun & Hes).
  exists es. split; [done |].
  destruct Hes as [->|[paths ->]]; [simpl; lia |].
  by rewrite (report_one_tag show_path paths).
Qed.

(** X8. Each walk writes only its own part of the validator: the first
    walk leaves the reference schema and the errors as they are, the
    second walk leaves the partition columns, the partition values and
    the tuples as they are. *)
Theorem walks_keep_to_their_fields (items : list (string * node))
    (names : list string) (st : validator) :
  (let st' := (_validate_folder_structure (Dir items) names st).2 in
   schema st' = schema st ∧ errors st' = errors st)
  ∧ (let st' := (_validate_parquet_files names (Dir items) st).2 in
     partition_columns st' = partition_columns st
     ∧ partition_values st' = partition_values st
     ∧ directory_structures st' = directory_structures st).
Proof.
  split.
  - destruct (validate_folder_structure_run (Dir items) names st eq_refl)
      as (st' & -> & Hs & He & _). done.
  - destruct (validate_parquet_files_run (Dir items) names st eq_refl)
      as (st' & -> & Hpv & Hpc & Hds & _). done.
Qed.

(** [validate] on a directory whose walks return is the three phases one
    after the other. *)
Lemma validate_directory_run (items : list (string * node)) (st : validator) :
  ∃ st1 es_conflict st3 es_files,
    _validate_folder_structure (Dir items) [] st = (Returned tt, st1)
    ∧ errors st1 = errors st
    ∧ _check_conflicting_structures st1
      = (Returned tt, add_errors es_conflict st1)
    ∧ _validate_parquet_files [] (Dir items) (add_errors es_conflict st1)
      = (Returned tt, st3)
    ∧ errors st3 = errors st ++ es_conflict ++ es_files
    ∧ validate (Some (Dir items)) st
      = (Returned (bool_decide (errors st3 = [])), st3).
Proof.
  destruct (validate_folder_structure_run (Dir items) [] st eq_refl)
    as (st1 & Hrun1 & _ & He1 & _).
  destruct (check_conflicting_structures_appends st1) as (es_conflict & Hrun2 & _).
  destruct (validate_parquet_files_run (Dir items) []
              (add_errors es_conflict st1) eq_refl)
    as (st3 & Hrun3 & _ & _ & _ & [es_files He3] & _).
  exists st1, es_conflict, st3, es_files.
  split; [done |]. split; [done |]. split; [done |]. split; [done |].
  split; [simpl in He3; by rewrite He3, He1, app_assoc |].
  unfold validate, try_except, mbind, M_bind.
  rewrite Hrun1, Hrun2, Hrun3. unfold get.
  destruct (errors st3) eqn:E; [by rewrite bool_decide_true |].
  by rewrite bool_decide_false.
Qed.

(** X10. A validator is good for one run: [validate] never removes an
    error, so on an object that already holds errors it fails whatever
    the tree looks like. *)
Theorem validate_keeps_errors (base_path : option node) (st : validator) :
  (∃ es, errors (validate base_path st).2 = errors st ++ es)
  ∧ (errors st ≠ [] → (validate base_path st).1 = Returned false).
Proof.
  destruct base_path as [[items|meta]|].
  - destruct (validate_directory_run items st)
      as (st1 & es_conflict & st3 & es_files & _ & _ & _ & _ & He3 & ->).
    simpl. split; [by eexists |]. intros Hne.
    rewrite bool_decide_false; [done |]. rewrite He3.
    destruct (errors st); [done | by simpl].
  - split; [by eexists | done].
  - split; [by eexists | done].
Qed.

End Phases.

(** ** The second walk as a whole *)

Section FileWalk.
Context `{Externals}.

(** X11. A file whose name does not end in the suffix [.parquet] is
    never opened: with or without its entry the second walk does the
    same, whatever the file holds. *)
Theorem other_files_skipped (before after : list (string * node))
    (name : string) (meta : metadata) (path_names : list string)
    (st : validator) :
  Str.suffix name ≠ ".parquet" →
  _validate_parquet_files path_names (Dir (before ++ (name, File meta) :: after)) st
  = _validate_parquet_files path_names (Dir (before ++ after)) st.
Proof.
  intros Hsuffix. rewrite !validate_parquet_files_app.
  generalize (_validate_parquet_files path_names (Dir before) st).2.
  intros st1. cbn [_validate_parquet_files].
  rewrite for_each_cons. by rewrite decide_False.
Qed.

Lemma reference_of_same_rest st st' (items : list (string * node)) r :
  schema st' = schema st → reference_of st (Dir items) r →
  reference_of st' (Dir items) r.
Proof. unfold reference_of. by intros ->. Qed.

(** The second walk appends, file by file, the errors against the schema
    it compares with. *)
Lemma walk_errors_run path :
  ∀ path_names st r,
    is_dir path = true →
    reference_of st path r →
    ∃ st',
      _validate_parquet_files path_names path st = (Returned tt, st')
      ∧ errors st'
        = errors st ++ walk_errors (partition_values st) r path_names path.
Proof.
  induction path as [items IH|meta] using node_induction; [|done].
  intros path_names st r _. simpl.
  revert st. induction IH as [|[name item] items IHitem _ IHitems]; intros st Href.
  - exists st. by rewrite app_nil_r.
  - rewrite for_each_cons. cbn [flat_map]. simpl in IHitem.
    unfold reference_of in Href. cbn [file_schemas flat_map] in Href.
    rewrite head_app_schemas in Href.
    destruct item as [subitems|meta].
    + destruct (validate_parquet_files_run (Dir subitems) (path_names ++ [name])
                  st eq_refl) as (st1 & Hrun1 & Hpv1 & _ & _ & _ & Hs1).
      destruct (IHitem (path_names ++ [name]) st r eq_refl) as (st1' & Hrun1' & He1).
      { unfold reference_of. destruct (schema st); [done |].
        by destruct (head (file_schemas opened_schema (Dir subitems))). }
      assert (st1' = st1) as -> by congruence.
      rewrite Hrun1. destruct (IHitems st1) as (st2 & Hrun2 & He2).
      { unfold reference_of. rewrite Hs1. destruct (schema st); [done |].
        by destruct (head (file_schemas opened_schema (Dir subitems))). }
      exists st2. split; [exact Hrun2 |].
      rewrite He2, He1, Hpv1. by rewrite app_assoc.
    + destruct (decide (Str.suffix name = ".parquet")) as [Hsuffix|Hsuffix].
      * rewrite validate_file_run.
        match goal with |- context [for_each _ items ?s] =>
          destruct (IHitems s) as (st2 & Hrun2 & He2)
        end.
        { unfold reference_of.
          destruct meta as [e|s fp]; simpl in *; [done |].
          destruct (schema st); simpl; [done | by simpl in Href]. }
        exists st2. split; [exact Hrun2 |]. rewrite He2.
        destruct meta as [e|s fp]; simpl in *; [by rewrite <-app_assoc |].
        rewrite <-!app_assoc. do 2 f_equal.
        unfold schema_errors. destruct (schema st) as [r'|]; simpl in *.
        -- by subst r'.
        -- subst s. by rewrite decide_True.
      * destruct (IHitems st) as (st2 & Hrun2 & He2); [done |].
        exists st2. split; [exact Hrun2 | done].
Qed.

(** X12. When the second walk returns, the errors it appended are, file
    by file in the order of the walk, the errors against one schema: the
    reference the validator had, or else the schema of the first file
    that opens. For each data file that is the read error if it does not
    open, otherwise the mismatch if its schema differs, followed by the
    read error of its stored path or by its partition mismatches. *)
Theorem file_errors_against_reference (items : list (string * node))
    (path_names : list string) (st : validator) (r : Schema) :
  reference_of st (Dir items) r →
  (_validate_parquet_files path_names (Dir items) st).1 = Returned tt →
  errors (_validate_parquet_files path_names (Dir items) st).2
  = errors st ++ walk_errors (partition_values st) r path_names (Dir items).
Proof.
  intros Href _.
  destruct (walk_errors_run (Dir items) path_names st r eq_refl Href)
    as (st' & -> & He). done.
Qed.

End FileWalk.

(** ** Names and paths *)

Section Names.

Lemma split_nonempty c s : Str.split c s ≠ [].
Proof.
  destruct s as [|a s]; simpl; [done |].
  destruct (Ascii.eqb a c); [done |]. by destruct (Str.split c s).
Qed.

(** X13. Cutting the stored path at every [/] loses nothing: there is one
    segment more than there are [/] in the path, no segment contains a
    [/], and the segments joined by [/] are the path again. *)
Theorem split_join (c : ascii) (s : string) :
  join c (Str.split c s) = s
  ∧ Forall (λ part, Str.contains c part = false) (Str.split c s)
  ∧ length (Str.split c s) = S (Str.count c s).
Proof.
  induction s as [|a s (Hjoin & Hparts & Hlen)]; simpl.
  - by repeat constructor.
  - destruct (Ascii.eqb a c) eqn:E.
    + apply Ascii.eqb_eq in E as ->. split; [|split].
      * pose proof (split_nonempty c s).
        destruct (Str.split c s) as [|w ws] eqn:Hsplit; [done |].
        change (String c (join c (w :: ws)) = String c s). by rewrite Hjoin.
      * by constructor.
      * simpl. by rewrite Hlen.
    + pose proof (split_nonempty c s).
      destruct (Str.split c s) as [|w ws] eqn:Hsplit; [done |].
      apply Forall_cons in Hparts as [Hw Hws]. split; [|split].
      * rewrite <-Hjoin. by destruct ws.
      * constructor; [|done]. simpl. by rewrite E.
      * done.
Qed.

Lemma contains_append c key value :
  Str.contains c key = false →
  Str.contains c (key +:+ String c value) = true
  ∧ Str.before c (key +:+ String c value) = key
  ∧ Str.after c (key +:+ String c value) = value.
Proof.
  induction key as [|a key IH]; simpl.
  - intros _. by rewrite Ascii.eqb_refl.
  - destruct (Ascii.eqb a c); [done |].
    intros (Hc & Hb & Ha)%IH. by rewrite Hc, Hb, Ha.
Qed.

(** X14. A directory name, or a segment of a stored path, is read as the
    pair of [key] and [value] exactly when it is [key], an [=] and
    [value], where [key] has no [=]: the value may hold further [=] and
    either part may be empty. *)
Theorem key_value_iff (name key value : string) :
  Str.key_value name = Some (key, value)
  ↔ name = key +:+ String Str.eq_sign value
    ∧ Str.contains Str.eq_sign key = false.
Proof.
  split.
  - intros (Hsign & -> & ->)%key_value_Some. by apply before_after.
  - intros [-> Hkey].
    destruct (contains_append Str.eq_sign key value Hkey) as (Hc & Hb & Ha).
    by rewrite (key_value_contains _ Hc), Hb, Ha.
Qed.

End Names.

(** ** Which files are data files *)

Section DataFiles.

Lemma take_drop_chars i s : s = take_chars i s +:+ Str.drop i s.
Proof.
  revert s. induction i as [|i IH]; intros [|a s]; try done.
  change (String a s = String a (take_chars i s +:+ Str.drop i s)).
  by rewrite <-IH.
Qed.

Lemma length_append s1 s2 :
  String.length (s1 +:+ s2) = String.length s1 + String.length s2.
Proof.
  induction s1 as [|a s1 IH]; [done |].
  change (S (String.length (s1 +:+ s2)) = S (String.length s1) + String.length s2).
  by rewrite IH.
Qed.

Lemma drop_append s1 s2 : Str.drop (String.length s1) (s1 +:+ s2) = s2.
Proof.
  induction s1 as [|a s1 IH]; [by destruct s2 |].
  change (Str.drop (String.length s1) (s1 +:+ s2) = s2). exact IH.
Qed.

Lemma rfind_append c s1 s2 :
  Str.rfind c (s1 +:+ s2)
  = match Str.rfind c s2 with
    | Some i => Some (String.length s1 + i)
    | None => Str.rfind c s1
    end.
Proof.
  induction s1 as [|a s1 IH].
  - change (Str.rfind c s2
            = match Str.rfind c s2 with Some i => Some i | None => None end).
    by destruct (Str.rfind c s2).
  - change (match Str.rfind c (s1 +:+ s2) with
            | Some i => Some (S i)
            | None => if Ascii.eqb a c then Some 0 else None
            end
            = match Str.rfind c s2 with
              | Some i => Some (S (String.length s1 + i))
              | None => match Str.rfind c s1 with
                        | Some i => Some (S i)
                        | None => if Ascii.eqb a c then Some 0 else None
                        end
              end).
    rewrite IH. by destruct (Str.rfind c s2).
Qed.

Lemma rfind_bound c s i : Str.rfind c s = Some i → i < String.length s.
Proof.
  revert i. induction s as [|a s IH]; intros i; simpl; [done |].
  destruct (Str.rfind c s) as [j|].
  - intros [= <-]. specialize (IH j eq_refl). lia.
  - destruct (Ascii.eqb a c); [|done]. intros [= <-]. lia.
Qed.

(** X15. The second walk takes a file for a data file exactly when its
    name is a non-empty stem followed by [.parquet]: a file named just
    [.parquet] is not one, a file named [a.b.parquet] is. *)
Theorem data_file_names (name : string) :
  Str.suffix name = ".parquet"
  ↔ ∃ stem, stem ≠ EmptyString ∧ name = stem +:+ ".parquet".
Proof.
  unfold Str.suffix. split.
  - destruct (Str.rfind "." name) as [i|] eqn:Hfind; [|done].
    case_bool_decide as Hi; [|done]. intros Hdrop.
    exists (take_chars i name). split.
    + destruct i as [|i]; [lia |]. destruct name; [simpl in Hi; lia | done].
    + rewrite <-Hdrop. apply take_drop_chars.
  - intros (stem & Hstem & ->).
    rewrite rfind_append. change (Str.rfind "." ".parquet") with (Some 0).
    cbv iota beta. rewrite Nat.add_0_r, length_append. rewrite bool_decide_true.
    + apply drop_append.
    + destruct stem; [done |]. simpl. lia.
Qed.

End DataFiles.

(** ** What conflict detection catches *)

Section Catches.
Context `{Externals}.

Lemma child_dirs_paths (items : list (string * node)) (p : list string) :
  p ∈ dir_paths (Dir items) ∧ length p = 1
  ↔ ∃ name, p = [name] ∧ name ∈ child_dirs items.
Proof.
  unfold child_dirs. simpl.
  induction items as [|[n item] items IH]; simpl.
  - split; [by intros [?%elem_of_nil _] | by intros (? & _ & ?%elem_of_nil)].
  - rewrite elem_of_app. split.
    + intros [[Hp|Hp] Hlen].
      * destruct (is_dir item) eqn:Hdir; [|by apply elem_of_nil in Hp].
        apply elem_of_cons in Hp as [->|Hp].
        -- exists n. split; [done | left].
        -- apply list_elem_of_fmap in Hp as (q & -> & Hq).
           apply dir_paths_nonempty in Hq. destruct q; [done | simpl in Hlen; lia].
      * destruct (proj1 IH (conj Hp Hlen)) as (name & -> & Hname).
        exists name. split; [done |]. destruct (is_dir item); [by right | done].
    + intros (name & -> & Hname). split; [|done].
      destruct (is_dir item) eqn:Hdir.
      * apply elem_of_cons in Hname as [->|Hname]; [left; left |].
        right. apply IH. by exists name.
      * right. apply IH. by exists name.
Qed.

(** The first names at depth 1 are the directories right under the base
    path. *)
Lemma depth1_segments_collected (items : list (string * node)) :
  depth1_segments
    (directory_structures (_validate_folder_structure (Dir items) [] init).2)
  = list_to_set (child_dirs items).
Proof.
  rewrite collection_is_fold by done. cbn [snd].
  apply set_eq. intros root. unfold depth1_segments.
  rewrite elem_of_set_omap, elem_of_list_to_set.
  change (default ∅ (Dict.get 1 ?ds)) with (level_set 1 ds).
  split.
  - intros (structure & Hin & Hhead).
    apply foldl_record_path_tuples in Hin; [|apply dir_paths_nonempty].
    destruct Hin as [Hin|(p & Hp & -> & Hlen)]; [by apply not_elem_of_empty in Hin |].
    destruct (proj1 (child_dirs_paths items p) (conj Hp Hlen)) as (name & -> & Hname).
    simpl in Hhead. by injection Hhead as <-.
  - intros Hroot. exists [root]. split; [|done].
    apply foldl_record_path_tuples; [apply dir_paths_nonempty |].
    right. exists [root]. split; [|done].
    apply (child_dirs_paths items [root]). by exists root.
Qed.

(** X16. A base path with more than one directory directly under it, at
    least one of them not named like a partition, fails validation, and
    the walk over the files runs all the same, from the state the report
    leaves: when the two walks return, the errors at the end are the
    report of Step 1, which lists every one of these directories once,
    followed by the errors of the data files against the schema of the
    first file that opens. *)
Theorem ambiguous_root_fails (items : list (string * node)) (r : Schema) :
  let roots : gset string := list_to_set (child_dirs items) in
  let st1 := (_validate_folder_structure (Dir items) [] init).2 in
  let report :=
    conflict_header
    :: ((λ root, Str.tab +:+ show_path [root]) <$> elements roots)
    ++ [remediation] in
  1 < size roots →
  (∃ name, name ∈ roots ∧ Str.contains Str.eq_sign name = false) →
  reference_of init (Dir items) r →
  (_validate_folder_structure (Dir items) [] init).1 = Returned tt →
  (_validate_parquet_files [] (Dir items) (add_errors report st1)).1
  = Returned tt →
  validate (Some (Dir items)) init
  = (Returned false,
     (_validate_parquet_files [] (Dir items) (add_errors report st1)).2)
  ∧ errors (validate (Some (Dir items)) init).2
    = report ++ walk_errors (partition_values st1) r [] (Dir items).
Proof.
  intros roots st1' report Hsize (name & Hname & Hplain) Href _ _.
  destruct (validate_directory_run items init)
    as (st1 & es_conflict & st3 & es_files & Hrun1 & He1 & Hrun2 & Hrun3 & He3 & Hv).
  assert (st1' = st1) as Hst1 by (unfold st1'; by rewrite Hrun1).
  clearbody st1'. subst st1'.
  destruct (collection_run items) as (st1' & Hrun1' & Hs1 & _ & Hrooted).
  assert (st1' = st1) as -> by congruence.
  pose proof (depth1_segments_collected items) as Hroots.
  rewrite Hrun1 in Hroots. cbn [snd] in Hroots. fold roots in Hroots.
  pose proof (check_conflicting_structures_run st1) as Hcheck.
  simpl in Hcheck. rewrite (root_paths_depth1 _ Hrooted), Hroots in Hcheck.
  rewrite bool_decide_true in Hcheck.
  2:{ split; [done |]. intros Hall. specialize (Hall name Hname). congruence. }
  rewrite report_conflict_run, <-list_fmap_compose, Hrun2 in Hcheck.
  assert (es_conflict = report) as ->.
  { injection Hcheck as Herr. by apply app_inv_head in Herr. }
  destruct (walk_errors_run (Dir items) [] (add_errors report st1) r eq_refl)
    as (st3' & Hrun3' & He3').
  { unfold reference_of in *. simpl. by rewrite Hs1. }
  assert (st3' = st3) as -> by congruence.
  rewrite Hv, Hrun3. cbn [snd]. split.
  - do 2 f_equal. apply bool_decide_eq_false. by rewrite He3.
  - rewrite He3'. simpl. by rewrite He1.
Qed.

Lemma check_levels_reports ds st :
  (∃ level structures,
     (level, structures) ∈ ds ∧ 1 < size (partition_keys structures)) →
  ∃ paths,
    check_levels ds st
    = (Returned tt,
       add_errors
         (conflict_header
          :: ((λ p, Str.tab +:+ show_path p) <$> paths) ++ [remediation]) st).
Proof.
  induction ds as [|[l ss] ds IH]; intros (level & structures & Hin & Hmany).
  - by apply elem_of_nil in Hin.
  - simpl. case_bool_decide as Hl.
    + eexists. by rewrite report_conflict_run.
    + apply IH. apply elem_of_cons in Hin as [[= -> ->]|Hin]; [lia |].
      by exists level, structures.
Qed.

Lemma two_elements_size (X : gset string) x y :
  x ∈ X → y ∈ X → x ≠ y → 1 < size X.
Proof.
  intros Hx Hy Hne.
  assert (size ({[x]} ∪ {[y]} : gset string) = 2) as Htwo.
  { rewrite size_union by (by apply disjoint_singleton_l, not_elem_of_singleton).
    by rewrite !size_singleton. }
  assert (({[x]} ∪ {[y]} : gset string) ⊆ X) as Hsub.
  { intros z [->%elem_of_singleton| ->%elem_of_singleton]%elem_of_union; done. }
  apply subseteq_size in Hsub. lia.
Qed.

(** X17. Two directories at the same depth that are named after
    different partition keys make validation fail: conflict detection
    appends a report, in Step 1 or in Step 2, and [validate] returns
    failure. *)
Theorem mixed_keys_fail (items : list (string * node)) (p1 p2 : list string)
    (name1 name2 key1 value1 key2 value2 : string) :
  p1 ∈ dir_paths (Dir items) → p2 ∈ dir_paths (Dir items) →
  length p1 = length p2 →
  last p1 = Some name1 → Str.key_value name1 = Some (key1, value1) →
  last p2 = Some name2 → Str.key_value name2 = Some (key2, value2) →
  key1 ≠ key2 →
  ∃ st' paths rest,
    validate (Some (Dir items)) init = (Returned false, st')
    ∧ errors st'
      = conflict_header
        :: ((λ p, Str.tab +:+ show_path p) <$> paths) ++ [remediation] ++ rest.
Proof.
  intros Hp1 Hp2 Hlen Hlast1 Hkv1 Hlast2 Hkv2 Hne.
  destruct (validate_directory_run items init)
    as (st1 & es_conflict & st3 & es_files & Hrun1 & He1 & Hrun2 & _ & He3 & Hv).
  assert (∃ paths,
    es_conflict
    = conflict_header
      :: ((λ p, Str.tab +:+ show_path p) <$> paths) ++ [remediation])
    as [paths Hes].
  { pose proof (check_conflicting_structures_run st1) as Hcheck.
    simpl in Hcheck. rewrite Hrun2 in Hcheck.
    assert (∃ paths,
      (Returned tt, add_errors es_conflict st1)
      = (Returned tt,
         add_errors (conflict_header
                     :: ((λ p, Str.tab +:+ show_path p) <$> paths)
                     ++ [remediation]) st1)) as [paths Heq].
    { rewrite Hcheck. case_bool_decide.
      - eexists. by rewrite report_conflict_run.
      - apply check_levels_reports.
        pose proof (collection_is_fold (Dir items) [] init eq_refl) as Hfold.
        rewrite Hrun1 in Hfold. injection Hfold as ->.
        set (ds := directory_structures
                     (foldl (record_path []) init (dir_paths (Dir items)))).
        assert (∀ p, p ∈ dir_paths (Dir items) → length p = length p1 →
                     p ∈ level_set (length p1) ds) as Hlevel.
        { intros p Hp Hl. apply foldl_record_path_tuples;
            [apply dir_paths_nonempty |]. right. by exists p. }
        pose proof (Hlevel p1 Hp1 eq_refl) as Hin1.
        pose proof (Hlevel p2 Hp2 (eq_sym Hlen)) as Hin2.
        unfold level_set in Hin1, Hin2.
        destruct (Dict.get (length p1) ds) as [structures|] eqn:Hget;
          [|by apply not_elem_of_empty in Hin1].
        simpl in Hin1, Hin2.
        exists (length p1), structures. split; [by apply get_Some_elem |].
        apply (two_elements_size _ key1 key2); [| |done].
        + apply elem_partition_keys. exists p1, name1, value1.
          split; [done |]. split; [|done].
          apply last_Some in Hlast1 as [front ->]. apply elem_of_app. right. left.
        + apply elem_partition_keys. exists p2, name2, value2.
          split; [done |]. split; [|done].
          apply last_Some in Hlast2 as [front ->]. apply elem_of_app. right. left. }
    exists paths. injection Heq as Herr. by apply app_inv_head in Herr. }
  exists st3, paths, es_files. split.
  - rewrite Hv. do 2 f_equal. apply bool_decide_eq_false. by rewrite He3, Hes.
  - rewrite He3, Hes. simpl. by rewrite <-app_assoc.
Qed.


End Catches.
(** ** The theorems at work on concrete trees *)

#[local] Existing Instance Demo.ext.

Ltac by_computation := apply (bool_decide_unpack _); vm_compute; exact I.

(** C1. The code breaks the claim on the claim's own example. In the tree
    [year=2020/month=01/f.parquet] depth 1 holds the one key [year] and
    depth 2 the one key [month], and the single data file reads well and
    stores a path that agrees with its directories; yet Step 2 counts the
    key of the parent among the keys of level 2 (lines 104-108 go over
    every name of a tuple, where the comment above them says "at this
    level"), appends a conflicting-structure report, and the run fails
    with exit code 1. *)
Theorem C1_nested_layout_reported :
  let st := (_validate_folder_structure Demo.nested [] init).2 in
  let ds := directory_structures st in
  levels ds = [1; 2]
  ∧ depth_keys (level_set 1 ds) = {["year"]}
  ∧ depth_keys (level_set 2 ds) = {["month"]}
  ∧ clean_files (partition_values st) "int64 id" Demo.nested = true
  ∧ partition_keys (level_set 2 ds) = {["year"; "month"]}
  ∧ errors (_check_conflicting_structures st).2
    = [conflict_header;
       Str.tab +:+ "/data/year=2020/month=01";
       remediation]
  ∧ (validate (Some Demo.nested) init).1 = Returned false
  ∧ errors (validate (Some Demo.nested) init).2
    = [conflict_header;
       Str.tab +:+ "/data/year=2020/month=01";
       remediation]
  ∧ main (Some Demo.nested) = 1.
Proof. repeat split; vm_compute; reflexivity. Qed.

Lemma C2_witness :
  let st' := (record_directory "year=2020" ["year=2020"] init).2 in
  "year=2020" = "year" +:+ "=2020"
  ∧ Str.contains Str.eq_sign "year" = false
  ∧ partition_columns st' = {["year"]} ∪ partition_columns init
  ∧ partition_values st'
    = <["year" := {["2020"]} ∪ default ∅ (partition_values init !! "year")]>
        (partition_values init).
Proof.
  apply (proj1 (C2_partition_pair "year=2020" ["year=2020"] init)).
  vm_compute. lia.
Defined.

(** A name with two [=] contributes a pair all the same: the key in front
    of the first [=], the rest as the value. *)
Lemma C2_counterexample :
  let st' := (record_directory "a=b=c" ["a=b=c"] init).2 in
  Str.count Str.eq_sign "a=b=c" = 2
  ∧ partition_columns st' = {["a"]}
  ∧ partition_values st' = {["a" := {["b=c"]}]}.
Proof. repeat split; vm_compute; reflexivity. Qed.

(** [a/] next to [year=2020/]: Step 1 reports both root-level paths. *)
Lemma C3_witness :
  let st := (_validate_folder_structure Demo.mixed_root [] init).2 in
  let segments := depth1_segments (directory_structures st) in
  let report :=
    conflict_header
    :: ((λ root, Str.tab +:+ show_path [root]) <$> elements segments)
    ++ [remediation] in
  _check_conflicting_structures st = (Returned tt, add_errors report st)
  ∧ length (List.filter is_conflict_error report) = 1.
Proof.
  apply (proj1 (C3_root_ambiguity [("a", Dir []); ("year=2020", Dir [])])).
  split; [by_computation |].
  intros Hall. specialize (Hall "a"). vm_compute in Hall.
  discriminate (Hall eq_refl).
Defined.

(** A file without row groups in front of a well-formed one: the first is
    reported as unreadable and still sets the reference schema. *)
Lemma C4_witness :
  (∃ st',
     _validate_parquet_files [] Demo.empty_then_good init = (Returned tt, st')
     ∧ schema st' = head (file_schemas opened_schema Demo.empty_then_good))
  ∧ (∃ rest,
       validate_file ["b.parquet"] (Opened "string id" (Returned "b.parquet"))
         (with_schema (Some "int64 id") init)
       = (Returned tt,
          add_errors
            ([schema_mismatch ["b.parquet"] "int64 id" "string id"] ++ rest)
            (with_schema (Some "int64 id") init))).
Proof.
  split.
  - exact (proj1 C4_reference_schema Demo.empty_then_good [] init eq_refl).
  - exact (proj2 C4_reference_schema ["b.parquet"] "string id"
             (Returned "b.parquet") (with_schema (Some "int64 id") init)
             "int64 id" eq_refl).
Defined.

(** The first file that is read successfully is [b.parquet], yet the
    reference schema is the one of [a.parquet], which was reported as
    unreadable, and [b.parquet] is reported as a mismatch. *)
Lemma C4_counterexample :
  let st' := (_validate_parquet_files [] Demo.empty_then_good init).2 in
  head (file_schemas read_schema Demo.empty_then_good) = Some "string id"
  ∧ schema st' = Some "int64 id"
  ∧ errors st'
    = [file_read_error ["a.parquet"] "list index out of range";
       schema_mismatch ["b.parquet"] "int64 id" "string id"].
Proof. repeat split; vm_compute; reflexivity. Qed.

(** [month=01/f.parquet] whose metadata says [month=13]. *)
Lemma C5_witness :
  let st := (_validate_folder_structure Demo.stale [] init).2 in
  check_partition ["month=01"; "f.parquet"] "month=13" st
  = (Returned tt,
     add_errors
       ["Partition value mismatch in /data/month=01/f.parquet. Value 13 not found in partition month"]
       st).
Proof.
  refine (proj1 (C5_partition_value_mismatch ["month=01"; "f.parquet"]
                   (_validate_folder_structure Demo.stale [] init).2)
            "month=13" "month" "13" {["01"]} _ _ _).
  - reflexivity.
  - vm_compute. reflexivity.
  - by_computation.
Defined.

(** An unreadable file between two readable ones. *)
Lemma C7_witness :
  let broken := File (OpenFails "Parquet magic bytes not found") in
  let first := [("a.parquet", Demo.data_file "int64 id" "a.parquet")] in
  let last := [("c.parquet", Demo.data_file "int64 id" "c.parquet")] in
  let item := ["b.parquet"] in
  let st1 := (_validate_parquet_files [] (Dir first) init).2 in
  ∃ schema_errs st2 st3,
    validate_file item (OpenFails "Parquet magic bytes not found") st1
    = (Returned tt, st2)
    ∧ errors st2
      = errors st1 ++ schema_errs
        ++ [file_read_error item "Parquet magic bytes not found"]
    ∧ List.filter is_file_read_error
        (schema_errs ++ [file_read_error item "Parquet magic bytes not found"])
      = [file_read_error item "Parquet magic bytes not found"]
    ∧ _validate_parquet_files [] (Dir (first ++ ("b.parquet", broken) :: last)) init
      = _validate_parquet_files [] (Dir last) st2
    ∧ _validate_parquet_files [] (Dir last) st2 = (Returned tt, st3).
Proof.
  exact (C7_unreadable_file []
           [("a.parquet", Demo.data_file "int64 id" "a.parquet")]
           [("c.parquet", Demo.data_file "int64 id" "c.parquet")]
           "b.parquet" (OpenFails "Parquet magic bytes not found")
           "Parquet magic bytes not found" init eq_refl eq_refl).
Defined.

Lemma C9_witness :
  let item := ["a.parquet"] in
  let unreadable := Opened "int64 id" (Raised "list index out of range") in
  ∃ st1 st2,
    validate_file item unreadable init = (Returned tt, st1)
    ∧ errors st1 = errors init ++ [file_read_error item "list index out of range"]
    ∧ schema st1 = Some "int64 id"
    ∧ _validate_parquet_files []
        (Dir [("a.parquet", File unreadable);
              ("b.parquet", Demo.data_file "string id" "b.parquet")]) init
      = (Returned tt, st2)
    ∧ schema st2 = Some "int64 id"
    ∧ (∀ item' s' fp',
         "int64 id" ≠ s' →
         ∃ rest,
           validate_file item' (Opened s' fp') st1
           = (Returned tt,
              add_errors (schema_mismatch item' "int64 id" s' :: rest) st1)).
Proof.
  exact (C9_unreadable_sets_reference [] "a.parquet" "int64 id"
           "list index out of range"
           [("b.parquet", Demo.data_file "string id" "b.parquet")]
           init eq_refl eq_refl).
Defined.

(** ** The further theorems at work *)


Lemma collection_order_irrelevant_witness :
  _validate_folder_structure
    (Dir [("a", Dir []); ("year=2020", Dir [("month=01", Dir [])])]) [] init
  = _validate_folder_structure
      (Dir [("year=2020", Dir [("month=01", Dir [])]); ("a", Dir [])]) [] init.
Proof.
  apply collection_order_irrelevant.
  intros p. simpl. rewrite !elem_of_cons. tauto.
Defined.

Lemma validate_keeps_errors_witness :
  (validate (Some Demo.uniform) (add_errors ["left over"] init)).1
  = Returned false.
Proof.
  apply (proj2 (validate_keeps_errors (Some Demo.uniform)
                  (add_errors ["left over"] init))).
  done.
Defined.

(** A file named just [.parquet] has no suffix and is not opened. *)
Lemma other_files_skipped_witness :
  _validate_parquet_files []
    (Dir [("f.parquet", Demo.data_file "int64 id" "f.parquet");
          (".parquet", File (OpenFails "Parquet magic bytes not found"))]) init
  = _validate_parquet_files []
      (Dir [("f.parquet", Demo.data_file "int64 id" "f.parquet")]) init.
Proof.
  apply (other_files_skipped
           [("f.parquet", Demo.data_file "int64 id" "f.parquet")] []
           ".parquet" (OpenFails "Parquet magic bytes not found") [] init).
  vm_compute. discriminate.
Defined.

Lemma file_errors_against_reference_witness :
  errors (_validate_parquet_files [] Demo.empty_then_good init).2
  = errors init
    ++ walk_errors (partition_values init) ("int64 id" : Schema) []
         Demo.empty_then_good.
Proof.
  apply (file_errors_against_reference
           [("a.parquet",
             File (Opened ("int64 id" : @Schema Demo.ext)
                     (Raised "list index out of range")));
            ("b.parquet", Demo.data_file "string id" "b.parquet")]
           [] init ("int64 id" : @Schema Demo.ext)).
  - vm_compute. reflexivity.
  - vm_compute. reflexivity.
Defined.

(** An unreadable file under [a/], next to [year=2020/]: the report of
    Step 1 and, after it, the read error of the file. *)
Lemma ambiguous_root_fails_witness :
  let st1 := (_validate_folder_structure Trees.ambiguous_with_file [] init).2 in
  let report :=
    conflict_header
    :: ((λ root, Str.tab +:+ show_path [root])
        <$> elements (list_to_set ["a"; "year=2020"] : gset string))
    ++ [remediation] in
  validate (Some Trees.ambiguous_with_file) init
  = (Returned false,
     (_validate_parquet_files [] Trees.ambiguous_with_file
        (add_errors report st1)).2)
  ∧ errors (validate (Some Trees.ambiguous_with_file) init).2
    = report
      ++ walk_errors (partition_values st1) ("int64 id" : Schema) []
           Trees.ambiguous_with_file.
Proof.
  refine (ambiguous_root_fails
            [("a", Dir [("x.parquet",
                         File (OpenFails "Parquet magic bytes not found"))]);
             ("year=2020", Dir [])]
            ("int64 id" : @Schema Demo.ext) _ _ _ _ _).
  - by_computation.
  - exists "a". split; [by_computation | reflexivity].
  - vm_compute. exact I.
  - vm_compute. reflexivity.
  - vm_compute. reflexivity.
Defined.

Lemma mixed_keys_fail_witness :
  ∃ st' paths rest,
    validate (Some Trees.mixed_keys) init = (Returned false, st')
    ∧ errors st'
      = conflict_header
        :: ((λ p, Str.tab +:+ show_path p) <$> paths) ++ [remediation] ++ rest.
Proof.
  refine (mixed_keys_fail
            [("year=2020", Dir [("month=01", Dir []); ("region=west", Dir [])])]
            ["year=2020"; "month=01"] ["year=2020"; "region=west"]
            "month=01" "region=west" "month" "01" "region" "west"
            _ _ _ _ _ _ _ _); try reflexivity.
  - by_computation.
  - by_computation.
  - discriminate.
Defined.
